(** * EventHubConsumer: the receive loop of [azure/eventhub/_consumer.py]

    A shallow embedding of [EventHubConsumer] (handler lifecycle, bounded
    retry around open + pull, message buffer and flush policy) with the
    properties of its specification.

    The consumer object is a record; every call it makes to a collaborator
    (transport handler, connection manager, caller's callback) is appended to
    a trace, so that "the handler was invoked", "a receive client was
    constructed" and "a message was enqueued" are observable facts.  What the
    collaborators answer (raise or return, which messages arrive during
    [do_work]) is an input of the model: one [Attempt] per pass through the
    [try] block of [receive].

    Three things are taken for granted: [EventData._from_message] and the
    caller's callback return normally, and the readings of [time.time()]
    and [max_wait_time] are integers (clock ticks), so that the rounding of
    a floating-point sum plays no part in the deadline. *)

From Stdlib Require Import ZArith List Bool Lia.
From Stdlib Require Ascii String.
Import ListNotations.
Open Scope Z_scope.

Set Implicit Arguments.

(** ** Collaborators

    What [_consumer.py] imports or inherits and this file does not define:
    the types of raw transport messages, of [EventData], of event positions
    (the values [event_position] and [EventData.offset] range over) and of
    Python exceptions (the values an [except Exception] clause catches), with
    the operations [receive] uses on them. *)
Class Collaborators := {
  Message : Type;
  EventData : Type;
  Position : Type;
  Exn : Type;
  (** [EventData._from_message] *)
  from_message : Message -> EventData;
  (** [self._amqp_transport.KIND == "uamqp"], and the assignment
      [event_data._uamqp_message = message] made in that case *)
  KIND_is_uamqp : bool;
  set_uamqp_message : EventData -> Message -> EventData;
  (** [EventData.offset] *)
  offset : EventData -> Position;
  (** [isinstance(exception, ImportError)] *)
  is_import_error : Exn -> bool;
  (** [self._amqp_transport.check_link_stolen(self, exception)]:
      [Some e'] when the transport recognises a stolen link and raises [e'],
      [None] when it returns *)
  check_link_stolen : Exn -> option Exn;
  (** [self._handle_exception(exception, is_consumer=True)]: the error it
      returns, and whether handling this error closes the handler *)
  handled : Exn -> Exn;
  handling_closes : Exn -> bool;
  (** the [IndexError] of [deque.popleft()] on an empty deque *)
  IndexError : Exn
}.

Section Model.

Context {T : Collaborators}.

(** ** Data *)

(** The receive client built by [_create_handler]: the arguments that
    depend on the consumer's mutable state. *)
Record Handler := {
  h_offset : Position;
  h_inclusive : bool;
  h_link_credit : Z;
  h_runtime_metric : bool
}.

Record Consumer := {
  running : bool;
  closed : bool;
  handler_ready : bool;
  _handler : option Handler;
  _offset : Position;
  _offset_inclusive : bool;
  _prefetch : Z;
  _track_last_enqueued_event_properties : bool;
  config_max_retries : Z;
  _message_buffer : list Message;
  _last_received_event : option EventData;
  _receive_start_time : option Z
}.

(** What [_on_event_received] is called with: a list in batch mode, one
    event or [None] in single mode. *)
Inductive Delivery :=
| Batch (events : list EventData)
| Single (event : option EventData).

Inductive Effect :=
| MessageReceived (m : Message)
| OnEventReceived (d : Delivery)
| HandlerClose
| CreateReceiveClient (h : Handler)
| HandlerOpen
| ClientReady
| DoWork (batch : Z).

Record World := { self : Consumer; trace : list Effect }.

(** Field updates. *)
Definition set_running (b : bool) (c : Consumer) : Consumer :=
  {| running := b; closed := closed c; handler_ready := handler_ready c;
     _handler := _handler c; _offset := _offset c;
     _offset_inclusive := _offset_inclusive c; _prefetch := _prefetch c;
     _track_last_enqueued_event_properties :=
       _track_last_enqueued_event_properties c;
     config_max_retries := config_max_retries c;
     _message_buffer := _message_buffer c;
     _last_received_event := _last_received_event c;
     _receive_start_time := _receive_start_time c |}.

Definition set_closed (b : bool) (c : Consumer) : Consumer :=
  {| running := running c; closed := b; handler_ready := handler_ready c;
     _handler := _handler c; _offset := _offset c;
     _offset_inclusive := _offset_inclusive c; _prefetch := _prefetch c;
     _track_last_enqueued_event_properties :=
       _track_last_enqueued_event_properties c;
     config_max_retries := config_max_retries c;
     _message_buffer := _message_buffer c;
     _last_received_event := _last_received_event c;
     _receive_start_time := _receive_start_time c |}.

Definition set_handler_ready (b : bool) (c : Consumer) : Consumer :=
  {| running := running c; closed := closed c; handler_ready := b;
     _handler := _handler c; _offset := _offset c;
     _offset_inclusive := _offset_inclusive c; _prefetch := _prefetch c;
     _track_last_enqueued_event_properties :=
       _track_last_enqueued_event_properties c;
     config_max_retries := config_max_retries c;
     _message_buffer := _message_buffer c;
     _last_received_event := _last_received_event c;
     _receive_start_time := _receive_start_time c |}.

Definition set_handler (h : option Handler) (c : Consumer) : Consumer :=
  {| running := running c; closed := closed c;
     handler_ready := handler_ready c;
     _handler := h; _offset := _offset c;
     _offset_inclusive := _offset_inclusive c; _prefetch := _prefetch c;
     _track_last_enqueued_event_properties :=
       _track_last_enqueued_event_properties c;
     config_max_retries := config_max_retries c;
     _message_buffer := _message_buffer c;
     _last_received_event := _last_received_event c;
     _receive_start_time := _receive_start_time c |}.

Definition set_offset (p : Position) (c : Consumer) : Consumer :=
  {| running := running c; closed := closed c;
     handler_ready := handler_ready c;
     _handler := _handler c; _offset := p;
     _offset_inclusive := _offset_inclusive c; _prefetch := _prefetch c;
     _track_last_enqueued_event_properties :=
       _track_last_enqueued_event_properties c;
     config_max_retries := config_max_retries c;
     _message_buffer := _message_buffer c;
     _last_received_event := _last_received_event c;
     _receive_start_time := _receive_start_time c |}.

Definition set_message_buffer (b : list Message) (c : Consumer) : Consumer :=
  {| running := running c; closed := closed c;
     handler_ready := handler_ready c;
     _handler := _handler c; _offset := _offset c;
     _offset_inclusive := _offset_inclusive c; _prefetch := _prefetch c;
     _track_last_enqueued_event_properties :=
       _track_last_enqueued_event_properties c;
     config_max_retries := config_max_retries c;
     _message_buffer := b;
     _last_received_event := _last_received_event c;
     _receive_start_time := _receive_start_time c |}.

Definition set_last_received_event (e : option EventData) (c : Consumer)
  : Consumer :=
  {| running := running c; closed := closed c;
     handler_ready := handler_ready c;
     _handler := _handler c; _offset := _offset c;
     _offset_inclusive := _offset_inclusive c; _prefetch := _prefetch c;
     _track_last_enqueued_event_properties :=
       _track_last_enqueued_event_properties c;
     config_max_retries := config_max_retries c;
     _message_buffer := _message_buffer c;
     _last_received_event := e;
     _receive_start_time := _receive_start_time c |}.

Definition set_receive_start_time (t : option Z) (c : Consumer) : Consumer :=
  {| running := running c; closed := closed c;
     handler_ready := handler_ready c;
     _handler := _handler c; _offset := _offset c;
     _offset_inclusive := _offset_inclusive c; _prefetch := _prefetch c;
     _track_last_enqueued_event_properties :=
       _track_last_enqueued_event_properties c;
     config_max_retries := config_max_retries c;
     _message_buffer := _message_buffer c;
     _last_received_event := _last_received_event c;
     _receive_start_time := t |}.

(** ** A state and exception monad over [World] *)

Inductive Res (A : Type) :=
| Ok (a : A)
| Err (e : Exn).
Arguments Ok {A} a.
Arguments Err {A} e.

Definition M (A : Type) := World -> World * Res A.

Definition ret {A} (a : A) : M A := fun w => (w, Ok a).
Definition raise {A} (e : Exn) : M A := fun w => (w, Err e).
Definition bind {A B} (m : M A) (k : A -> M B) : M B :=
  fun w => match m w with
           | (w', Ok a) => k a w'
           | (w', Err e) => (w', Err e)
           end.
Definition get : M Consumer := fun w => (w, Ok (self w)).
Definition modify (f : Consumer -> Consumer) : M unit :=
  fun w => ({| self := f (self w); trace := trace w |}, Ok tt).
Definition emit (e : Effect) : M unit :=
  fun w => ({| self := self w; trace := trace w ++ [e] |}, Ok tt).

Notation "'let*' x ':=' m 'in' k" := (bind m (fun x => k))
  (at level 10, x name, m at level 100, k at level 200).

(** ** What the collaborators do during one pass through the [try] block *)

Inductive OpenStep :=
| CloseStale | CreateAuth | CreateHandler | GetConnection | OpenHandler.

Definition OpenStep_eqb (a b : OpenStep) : bool :=
  match a, b with
  | CloseStale, CloseStale | CreateAuth, CreateAuth
  | CreateHandler, CreateHandler | GetConnection, GetConnection
  | OpenHandler, OpenHandler => true
  | _, _ => false
  end.

Record Attempt := {
  (** the call of [_open]'s first block that raises, if one does *)
  open_fault : option (OpenStep * Exn);
  (** [client_ready()]: raises or answers *)
  ready_probe : Res bool;
  (** the messages [do_work] hands to [_message_received] *)
  arrivals : list Message;
  (** the exception [do_work] raises after that, if it does *)
  work_fault : option Exn
}.

(** A collaborator call: raises where the attempt says so, and is recorded
    in the trace otherwise. *)
Definition call (s : Attempt) (step : OpenStep) (eff : list Effect) : M unit :=
  fun w =>
    match open_fault s with
    | Some (step', e) =>
        if OpenStep_eqb step step' then (w, Err e)
        else ({| self := self w; trace := trace w ++ eff |}, Ok tt)
    | None => ({| self := self w; trace := trace w ++ eff |}, Ok tt)
    end.

Definition truthy_handler (h : option Handler) : bool :=
  match h with Some _ => true | None => false end.

(** ** The methods of [EventHubConsumer] *)

Definition __init__ (event_position : Position)
    (event_position_inclusive : bool)
    (prefetch : Z) (track : bool) (max_retries : Z) : World :=
  {| self := {| running := false; closed := false; handler_ready := false;
                _handler := None; _offset := event_position;
                _offset_inclusive := event_position_inclusive;
                _prefetch := prefetch;
                _track_last_enqueued_event_properties := track;
                config_max_retries := max_retries;
                _message_buffer := [];
                _last_received_event := None;
                _receive_start_time := None |};
     trace := [] |}.

Definition _create_handler (s : Attempt) : M unit :=
  let* c := get in
  let h := {| h_offset := _offset c;
              h_inclusive := _offset_inclusive c;
              h_link_credit := _prefetch c;
              h_runtime_metric := _track_last_enqueued_event_properties c |} in
  let* _ := call s CreateHandler [CreateReceiveClient h] in
  modify (set_handler (Some h)).

Definition _message_received (m : Message) : M unit :=
  let* _ := emit (MessageReceived m) in
  modify (fun c => set_message_buffer (_message_buffer c ++ [m]) c).

Definition _next_message_in_buffer : M EventData :=
  let* c := get in
  match _message_buffer c with
  | [] => raise IndexError
  | message :: rest =>
      let* _ := modify (set_message_buffer rest) in
      let event_data := from_message message in
      let event_data :=
        if KIND_is_uamqp then set_uamqp_message event_data message
        else event_data in
      let* _ := modify (set_last_received_event (Some event_data)) in
      ret event_data
  end.

Definition client_ready (s : Attempt) : M bool :=
  match ready_probe s with
  | Ok b => let* _ := emit ClientReady in ret b
  | Err e => raise e
  end.

Definition _open (s : Attempt) : M bool :=
  let* c := get in
  let* _ :=
    if negb (running c) then
      let* _ :=
        if truthy_handler (_handler c)
        then call s CloseStale [HandlerClose] else ret tt in
      let* _ := call s CreateAuth [] in
      let* _ := _create_handler s in
      let* _ := call s GetConnection [] in
      let* _ := call s OpenHandler [HandlerOpen] in
      let* _ := modify (set_handler_ready false) in
      modify (set_running true)
    else ret tt in
  let* c := get in
  let* _ :=
    if negb (handler_ready c) then
      let* r := client_ready s in
      if r then modify (set_handler_ready true) else ret tt
    else ret tt in
  let* c := get in
  ret (handler_ready c).

Fixpoint deliver_arrivals (ms : list Message) : M unit :=
  match ms with
  | [] => ret tt
  | m :: ms' => let* _ := _message_received m in deliver_arrivals ms'
  end.

(** [self._handler.do_work(batch=self._prefetch)]. *)
Definition do_work (s : Attempt) : M unit :=
  let* c := get in
  let* _ := emit (DoWork (_prefetch c)) in
  let* _ := deliver_arrivals (arrivals s) in
  match work_fault s with
  | Some e => raise e
  | None => ret tt
  end.

(** The body of the [try] in [receive]. *)
Definition try_body (s : Attempt) : M unit :=
  let* ready := _open s in
  if ready then do_work s else ret tt.

(** Modelled from the spec: [_handle_exception], which this class inherits
    from the mixin of [_client_base]: it returns the error that [receive]
    raises once the retries are exhausted ("the last encountered error
    (chained/wrapped)").  Closing the handler is the mixin's
    [_close_handler], which closes the handler when there is one and clears
    [running]; whether a given error has that effect is left open. *)
Definition _handle_exception (e : Exn) : M Exn :=
  let* c := get in
  let* _ :=
    if handling_closes e then
      let* _ :=
        if truthy_handler (_handler c) then emit HandlerClose else ret tt in
      modify (set_running false)
    else ret tt in
  ret (handled e).

(** How one pass through the [while] body of [receive] ends. *)
Inductive Control :=
| Break
| Return
| Continue
| Raise (e : Exn).

(** The [except Exception as exception] clause; [retried_times] is
    threaded through. *)
Definition except_clause (max_retries retried_times : Z) (exception : Exn)
    (w : World) : World * (Control * Z) :=
  if is_import_error exception then (w, (Raise exception, retried_times))
  else
    match check_link_stolen exception with
    | Some stolen => (w, (Raise stolen, retried_times))
    | None =>
        if negb (running (self w)) then (w, (Return, retried_times))
        else
          let w1 :=
            match _last_received_event (self w) with
            | Some ev =>
                {| self := set_offset (offset ev) (self w);
                   trace := trace w |}
            | None => w
            end in
          match _handle_exception exception w1 with
          | (w2, Err e) => (w2, (Raise e, retried_times))
          | (w2, Ok last_exception) =>
              let retried_times := retried_times + 1 in
              if retried_times >? max_retries
              then (w2, (Raise last_exception, retried_times))
              else (w2, (Continue, retried_times))
          end
    end.

(** One pass through the [while] body. *)
Definition loop_body (max_retries retried_times : Z) (s : Attempt)
    (w : World) : World * (Control * Z) :=
  match try_body s w with
  | (w1, Ok _) => (w1, (Break, retried_times))
  | (w1, Err exception) =>
      except_clause max_retries retried_times exception w1
  end.

(** What is recorded about each pass through the [while] body: which
    attempt it was, the value of [retried_times] and the state on entry. *)
Record Pass := { p_index : nat; p_retried : Z; p_before : World }.

Inductive Exit :=
| Completed           (* the loop was left by [break] or by its guard *)
| ExitByClose         (* [return] inside the loop *)
| Propagated (e : Exn)
| OutOfFuel.

Record Pull := {
  exit : Exit;
  world : World;
  retried : Z;
  passes : list Pass
}.

(** [while retried_times <= max_retries: ...]; [env k] is what the
    collaborators do on pass [k]. *)
Fixpoint retry_loop (fuel : nat) (max_retries : Z) (env : nat -> Attempt)
    (k : nat) (retried_times : Z) (log : list Pass) (w : World) : Pull :=
  if retried_times <=? max_retries then
    match fuel with
    | O => {| exit := OutOfFuel; world := w; retried := retried_times;
              passes := log |}
    | S fuel' =>
        let log' :=
          log ++ [{| p_index := k; p_retried := retried_times;
                     p_before := w |}] in
        match loop_body max_retries retried_times (env k) w with
        | (w', (Break, r)) =>
            {| exit := Completed; world := w'; retried := r;
               passes := log' |}
        | (w', (Return, r)) =>
            {| exit := ExitByClose; world := w'; retried := r;
               passes := log' |}
        | (w', (Raise e, r)) =>
            {| exit := Propagated e; world := w'; retried := r;
               passes := log' |}
        | (w', (Continue, r)) =>
            retry_loop fuel' max_retries env (S k) r log' w'
        end
    end
  else {| exit := Completed; world := w; retried := retried_times;
          passes := log |}.

(** [len(self._message_buffer)] and the truthiness of the deque. *)
Definition len (w : World) : Z :=
  Z.of_nat (length (_message_buffer (self w))).

Definition nonempty (w : World) : bool :=
  match _message_buffer (self w) with [] => false | _ :: _ => true end.

Definition get_world : M World := fun w => (w, Ok w).

(** Truthiness of [max_wait_time]: [None] and [0] are false. *)
Definition truthy_wait (max_wait_time : option Z) : bool :=
  match max_wait_time with
  | Some t => negb (t =? 0)
  | None => false
  end.

(** [max_wait_time or 0]. *)
Definition wait_or_0 (max_wait_time : option Z) : Z :=
  match max_wait_time with
  | Some t => if t =? 0 then 0 else t
  | None => 0
  end.

(** [self._receive_start_time or time.time()]. *)
Definition start_or_now (start : option Z) (now : Z) : Z :=
  match start with
  | Some t => if t =? 0 then now else t
  | None => now
  end.

(** The part of [receive] up to the flush test: the anchor and the retried
    pull.  [now] is what [time.time()] answers when the anchor is taken. *)
Definition pull (max_batch_size : Z) (now : Z) (env : nat -> Attempt)
    (w : World) : Pull :=
  let retried_times := 0 in
  let max_retries := config_max_retries (self w) in
  let start := start_or_now (_receive_start_time (self w)) now in
  let w := {| self := set_receive_start_time (Some start) (self w);
              trace := trace w |} in
  if len w <? max_batch_size then
    retry_loop (Z.to_nat (max_retries + 1)) max_retries env 0
      retried_times [] w
  else {| exit := Completed; world := w; retried := retried_times;
          passes := [] |}.

(** The test of the last [if] of [receive]; [now] is what [time.time()]
    answers there. *)
Definition flush_condition (max_batch_size : Z) (max_wait_time : option Z)
    (deadline now : Z) (w : World) : bool :=
  (len w >=? max_batch_size)
  || (nonempty w && negb (truthy_wait max_wait_time))
  || ((deadline <=? now) && truthy_wait max_wait_time).

Fixpoint collect (n : nat) (events_for_callback : list EventData)
  : M (list EventData) :=
  match n with
  | O => ret events_for_callback
  | S n' =>
      let* ev := _next_message_in_buffer in
      collect n' (events_for_callback ++ [ev])
  end.

Definition _on_event_received (d : Delivery) : M unit :=
  emit (OnEventReceived d).

(** The body of the last [if] of [receive]. *)
Definition flush (batch : bool) (max_batch_size : Z) : M unit :=
  let* w := get_world in
  let* _ :=
    if batch then
      let* events_for_callback :=
        collect (Z.to_nat (Z.min max_batch_size (len w))) [] in
      _on_event_received (Batch events_for_callback)
    else if nonempty w then
      let* ev := _next_message_in_buffer in
      _on_event_received (Single (Some ev))
    else _on_event_received (Single None) in
  modify (set_receive_start_time None).

Inductive Outcome :=
| Returned
| Raised (e : Exn)
| Diverged.

Record Receipt := {
  outcome : Outcome;
  final : World;
  pulled : Pull
}.

(** [receive(batch, max_batch_size, max_wait_time)]; [clock] holds the two
    readings of [time.time()]. *)
Definition receive (batch : bool) (max_batch_size : Z)
    (max_wait_time : option Z) (clock : Z * Z) (env : nat -> Attempt)
    (w : World) : Receipt :=
  let p := pull max_batch_size (fst clock) env w in
  let deadline :=
    start_or_now (_receive_start_time (self w)) (fst clock)
    + wait_or_0 max_wait_time in
  match exit p with
  | Propagated e => {| outcome := Raised e; final := world p; pulled := p |}
  | ExitByClose => {| outcome := Returned; final := world p; pulled := p |}
  | OutOfFuel => {| outcome := Diverged; final := world p; pulled := p |}
  | Completed =>
      if flush_condition max_batch_size max_wait_time deadline (snd clock)
           (world p)
      then
        match flush batch max_batch_size (world p) with
        | (w', Ok _) => {| outcome := Returned; final := w'; pulled := p |}
        | (w', Err e) => {| outcome := Raised e; final := w'; pulled := p |}
        end
      else {| outcome := Returned; final := world p; pulled := p |}
  end.

(** Modelled from the spec: [close()], which this class inherits from the
    mixin of [_client_base]: it "closes handler if present, sets
    closed=true, running=false". *)
Definition close : M unit :=
  let* c := get in
  let* _ :=
    if truthy_handler (_handler c) then emit HandlerClose else ret tt in
  let* _ := modify (set_running false) in
  modify (set_closed true).

(** ** Reading the trace *)

(** The messages handed to [_message_received], in order. *)
Definition enqueued (t : list Effect) : list Message :=
  flat_map (fun e => match e with MessageReceived m => [m] | _ => [] end) t.

(** The arguments of the calls of [_on_event_received], in order. *)
Definition deliveries (t : list Effect) : list Delivery :=
  flat_map (fun e => match e with OnEventReceived d => [d] | _ => [] end) t.

Definition events_of (d : Delivery) : list EventData :=
  match d with
  | Batch events => events
  | Single (Some event) => [event]
  | Single None => []
  end.

(** The events passed to the callback, concatenated over all its calls. *)
Definition delivered (t : list Effect) : list EventData :=
  flat_map events_of (deliveries t).

(** The receive clients constructed, in order. *)
Definition created (t : list Effect) : list Handler :=
  flat_map (fun e => match e with CreateReceiveClient h => [h] | _ => [] end)
    t.

(** The calls that construct or open a handler. *)
Definition opens (t : list Effect) : list Effect :=
  filter (fun e => match e with
                   | CreateReceiveClient _ | HandlerOpen => true
                   | _ => false
                   end) t.

(** The event [_next_message_in_buffer] makes of a message. *)
Definition convert (message : Message) : EventData :=
  let event_data := from_message message in
  if KIND_is_uamqp then set_uamqp_message event_data message
  else event_data.

Fixpoint last_of {A} (l : list A) : option A :=
  match l with
  | [] => None
  | [x] => Some x
  | _ :: l' => last_of l'
  end.

(** ** The states a consumer can be in *)

Inductive reachable : World -> Prop :=
| reach_init : forall event_position inclusive prefetch track max_retries,
    reachable (__init__ event_position inclusive prefetch track max_retries)
| reach_receive : forall w batch max_batch_size max_wait_time clock env,
    reachable w ->
    reachable
      (final (receive batch max_batch_size max_wait_time clock env w))
| reach_message : forall w m,
    reachable w -> reachable (fst (_message_received m w))
| reach_close : forall w,
    reachable w -> reachable (fst (close w)).

(** The loop of one [receive] call, as a relation: from attempt [k] with
    [retried_times = r] in state [w], the passes made and how and where it
    ends. *)
Inductive run (max_retries : Z) (env : nat -> Attempt)
  : nat -> Z -> World -> list Pass -> Exit -> World -> Z -> Prop :=
| run_guard : forall k r w,
    max_retries < r ->
    run max_retries env k r w [] Completed w r
| run_break : forall k r w w' r',
    r <= max_retries ->
    loop_body max_retries r (env k) w = (w', (Break, r')) ->
    run max_retries env k r w
      [{| p_index := k; p_retried := r; p_before := w |}] Completed w' r'
| run_return : forall k r w w' r',
    r <= max_retries ->
    loop_body max_retries r (env k) w = (w', (Return, r')) ->
    run max_retries env k r w
      [{| p_index := k; p_retried := r; p_before := w |}] ExitByClose w' r'
| run_raise : forall k r w w' r' e,
    r <= max_retries ->
    loop_body max_retries r (env k) w = (w', (Raise e, r')) ->
    run max_retries env k r w
      [{| p_index := k; p_retried := r; p_before := w |}]
      (Propagated e) w' r'
| run_continue : forall k r w w' r' ps x wf rf,
    r <= max_retries ->
    loop_body max_retries r (env k) w = (w', (Continue, r')) ->
    run max_retries env (S k) r' w' ps x wf rf ->
    run max_retries env k r w
      ({| p_index := k; p_retried := r; p_before := w |} :: ps) x wf rf.

(** ** Frames: what a stretch of code leaves alone *)

(** [keeps g m]: running [m] leaves the part [g] of the consumer as it
    was. *)
Definition keeps {X A} (g : Consumer -> X) (m : M A) : Prop :=
  forall w, g (self (fst (m w))) = g (self w).

(** [silent m]: running [m] calls no callback, and appends to the buffer
    exactly the messages it records as received. *)
Definition silent {A} (m : M A) : Prop :=
  forall w, exists t,
    trace (fst (m w)) = trace w ++ t /\
    deliveries t = [] /\
    _message_buffer (self (fst (m w)))
    = _message_buffer (self w) ++ enqueued t.

(** [g] is a field that neither [_open] nor [do_work] assigns. *)
Definition untouched_by_pull {X} (g : Consumer -> X) : Prop :=
  (forall b c, g (set_running b c) = g c) /\
  (forall b c, g (set_handler_ready b c) = g c) /\
  (forall h c, g (set_handler h c) = g c) /\
  (forall b c, g (set_message_buffer b c) = g c).

(** [after_pull w w']: [w'] is what a stretch of the retry loop can make
    of [w].  The callback was not called, the buffer only grew at its tail,
    by the messages received meanwhile, and the cursor of the last received
    event, the flags and settings below are as they were. *)
Definition after_pull (w w' : World) : Prop :=
  (exists t, trace w' = trace w ++ t /\ deliveries t = [] /\
             _message_buffer (self w')
             = _message_buffer (self w) ++ enqueued t) /\
  _last_received_event (self w') = _last_received_event (self w) /\
  closed (self w') = closed (self w) /\
  config_max_retries (self w') = config_max_retries (self w) /\
  _receive_start_time (self w') = _receive_start_time (self w).

(** The state in which the loop of [receive] starts: the anchor is set. *)
Definition anchored (now : Z) (w : World) : World :=
  {| self := set_receive_start_time
               (Some (start_or_now (_receive_start_time (self w)) now))
               (self w);
     trace := trace w |}.

(** The state after [taken] was dequeued and converted, [rest] staying
    behind. *)
Definition dequeued (taken rest : list Message) (w : World) : World :=
  match taken with
  | [] => w
  | _ :: _ =>
      {| self := set_last_received_event (last_of (map convert taken))
                   (set_message_buffer rest (self w));
         trace := trace w |}
  end.

(** The exit a pass that does not [continue] gives the loop. *)
Definition exit_of (c : Control) : option Exit :=
  match c with
  | Break => Some Completed
  | Return => Some ExitByClose
  | Raise e => Some (Propagated e)
  | Continue => None
  end.

(** An exception that is neither an [ImportError] nor a stolen link. *)
Definition retryable (e : Exn) : Prop :=
  is_import_error e = false /\ check_link_stolen e = None.

(** The [try] block of this pass raised a retryable exception and left
    [running] set. *)
Definition fails_retryably (env : nat -> Attempt) (pass : Pass) : Prop :=
  exists w1 e,
    try_body (env (p_index pass)) (p_before pass) = (w1, Err e) /\
    retryable e /\ running (self w1) = true.

(** The state in which a retryable failure leaves the consumer: the
    position is rewound to the last received event, then the exception is
    handled. *)
Definition rewound (w : World) : World :=
  match _last_received_event (self w) with
  | Some ev => {| self := set_offset (offset ev) (self w); trace := trace w |}
  | None => w
  end.

(** ** What the specification states *)

(** The ordering invariant: the events delivered so far, followed by the
    conversion of what is still buffered, are the conversion of everything
    that was enqueued, in enqueue order. *)
Definition in_order (w : World) : Prop :=
  delivered (trace w) ++ map convert (_message_buffer (self w))
  = map convert (enqueued (trace w)).

(** The cursor invariant: the last received event is the last event that
    was passed to the callback. *)
Definition cursor_at_last_delivered (w : World) : Prop :=
  _last_received_event (self w) = last_of (delivered (trace w)).

(** A [max_wait_time] counts as configured when it is truthy. *)
Definition configured (max_wait_time : option Z) : Prop :=
  exists t, max_wait_time = Some t /\ t <> 0.

(** The flush condition in the words of the specification: occupancy
    reaches [max_batch_size], or the buffer is non-empty and no
    [max_wait_time] is configured, or one is configured and the time [now]
    has reached the deadline [receive_start_time + max_wait_time]. *)
Definition flush_now (max_batch_size : Z) (max_wait_time : option Z)
    (now : Z) (w : World) : Prop :=
  max_batch_size <= len w \/
  (_message_buffer (self w) <> [] /\ ~ configured max_wait_time) \/
  (exists t start,
      max_wait_time = Some t /\ t <> 0 /\
      _receive_start_time (self w) = Some start /\ start + t <= now).

(** The callback was called during the stretch from [w] to [w']. *)
Definition handler_invoked (w w' : World) : Prop :=
  exists d, deliveries (trace w') = deliveries (trace w) ++ [d].

(** The receive client [_create_handler] builds in state [w]. *)
Definition handler_of (w : World) : Handler :=
  {| h_offset := _offset (self w);
     h_inclusive := _offset_inclusive (self w);
     h_link_credit := _prefetch (self w);
     h_runtime_metric := _track_last_enqueued_event_properties (self w) |}.

(** Closing the handler that is still there. *)
Definition stale (w : World) : list Effect :=
  if truthy_handler (_handler (self w)) then [HandlerClose] else [].

(** ** The life of the receive client, read off the trace *)

(** Where the receive client stands: none was constructed yet, the last one
    constructed was not opened yet, it is open, or it was closed. *)
Inductive Link := NoClient | Built | Opened | Shut.

Definition is_opened (l : Link) : bool :=
  match l with Opened => true | _ => false end.

(** One call further: the second component turns false, for good, when a
    receive client is constructed while the previous one is open. *)
Definition link_step (st : Link * bool) (e : Effect) : Link * bool :=
  match e with
  | CreateReceiveClient _ => (Built, snd st && negb (is_opened (fst st)))
  | HandlerOpen => (Opened, snd st)
  | HandlerClose => (Shut, snd st)
  | _ => st
  end.

Definition lifecycle (t : list Effect) : Link * bool :=
  fold_left link_step t (NoClient, true).

(** The calls that leave the receive client as it is. *)
Definition neutral (e : Effect) : bool :=
  match e with
  | CreateReceiveClient _ | HandlerOpen | HandlerClose => false
  | _ => true
  end.

(** The settings a receive client is constructed from, besides the
    position. *)
Definition settings (c : Consumer) : bool * Z * bool :=
  (_offset_inclusive c, _prefetch c, _track_last_enqueued_event_properties c).

(** [aside w w']: from [w] to [w'] no call touched the receive client, and
    the reference to it and the settings are as they were. *)
Definition aside (w w' : World) : Prop :=
  _handler (self w') = _handler (self w) /\
  settings (self w') = settings (self w) /\
  exists t, trace w' = trace w ++ t /\ forallb neutral t = true.

Definition asideM {A} (m : M A) : Prop := forall w, aside w (fst (m w)).

(** [do_work] was called during [t]. *)
Definition pulls_work (t : list Effect) : bool :=
  existsb (fun e => match e with DoWork _ => true | _ => false end) t.

End Model.

Arguments Ok {T A} a.
Arguments Err {T A} e.

(** ** The partition of a source

    [self._partition = self._source.split("/")[-1]] in [__init__], on
    strings as lists of characters. *)

Definition slash : Ascii.ascii :=
  Ascii.Ascii true true true true false true false false.

(** [s.split(sep)] for a separator of one character. *)
Fixpoint split (sep : Ascii.ascii) (s : list Ascii.ascii)
  : list (list Ascii.ascii) :=
  match s with
  | [] => [[]]
  | c :: s' =>
      if Ascii.eqb c sep then [] :: split sep s'
      else match split sep s' with
           | segment :: segments => (c :: segment) :: segments
           | [] => [[c]]
           end
  end.

(** [sep.join(segments)]. *)
Fixpoint join (sep : Ascii.ascii) (segments : list (list Ascii.ascii))
  : list Ascii.ascii :=
  match segments with
  | [] => []
  | [segment] => segment
  | segment :: segments' => segment ++ sep :: join sep segments'
  end.

(** [source.split("/")[-1]]: [None] stands for the [IndexError] of [[-1]]
    on an empty list. *)
Definition _partition (source : list Ascii.ascii)
  : option (list Ascii.ascii) :=
  last_of (split slash source).

(** * A concrete consumer

    Messages are numbered, an event is the number of its message and its
    offset is that number. *)

Inductive PyExn :=
| PyImportError
| PyLinkStolen
| PyTimeout
| PyIndexError
| PyEventHubError (cause : PyExn).

Definition demo : Collaborators :=
  {| Message := Z;
     EventData := Z;
     Position := Z;
     Exn := PyExn;
     from_message := fun m => m;
     KIND_is_uamqp := false;
     set_uamqp_message := fun e _ => e;
     offset := fun e => e;
     is_import_error :=
       fun e => match e with PyImportError => true | _ => false end;
     check_link_stolen :=
       fun e => match e with
                | PyLinkStolen => Some (PyEventHubError PyLinkStolen)
                | _ => None
                end;
     handled := PyEventHubError;
     handling_closes := fun _ => true;
     IndexError := PyIndexError |}.

(** [do_work] hands over [ms] and returns. *)
Definition arriving (ms : list Z) : Attempt (T := demo) :=
  {| open_fault := None; ready_probe := Ok (T := demo) true;
     arrivals := ms; work_fault := None |}.

(** [do_work] hands over [ms] and raises [e]. *)
Definition failing (ms : list Z) (e : PyExn) : Attempt (T := demo) :=
  {| open_fault := None; ready_probe := Ok (T := demo) true;
     arrivals := ms; work_fault := Some e |}.

(** The connection cannot be obtained. *)
Definition unreachable : Attempt (T := demo) :=
  {| open_fault := Some (GetConnection, PyTimeout : @Exn demo);
     ready_probe := Ok (T := demo) true;
     arrivals := []; work_fault := None |}.

(** A consumer created at position [0], with [max_retries] retries. *)
Definition fresh (max_retries : Z) : World (T := demo) :=
  __init__ (T := demo) 0 false 300 false max_retries.

(** The consumer after a first single-mode [receive] during which messages
    [1] and [2] arrived: [1] was delivered, [2] is buffered. *)
Definition one_delivered (max_retries : Z) : World (T := demo) :=
  final (receive false 1 None (10, 10) (fun _ => arriving [1; 2])
           (fresh max_retries)).

(** Every attempt times out in [do_work]. *)
Definition timing_out : nat -> Attempt (T := demo) :=
  fun _ => failing [] PyTimeout.

(** The first attempt times out; on the second the link is found stolen. *)
Definition stolen_on_retry : nat -> Attempt (T := demo) :=
  fun k => match k with
           | O => failing [] PyTimeout
           | S _ => failing [] PyLinkStolen
           end.

(** The first attempt times out; the second raises an [ImportError]. *)
Definition import_error_on_retry : nat -> Attempt (T := demo) :=
  fun k => match k with
           | O => failing [] PyTimeout
           | S _ => failing [] PyImportError
           end.

(** The consumer [one_delivered 3], closed. *)
Definition closed_consumer : World (T := demo) :=
  fst (close (one_delivered 3)).

(** The pass a retried pull of [w] starts with, and the one that follows
    when the first attempt is [s]. *)
Definition first_pass (now : Z) (w : World (T := demo)) : Pass (T := demo) :=
  {| p_index := 0; p_retried := 0; p_before := anchored now w |}.

Definition second_pass (now : Z) (s : Attempt (T := demo))
    (w : World (T := demo)) : Pass (T := demo) :=
  {| p_index := 1; p_retried := 1;
     p_before :=
       fst (loop_body (config_max_retries (self w)) 0 s (anchored now w)) |}.

(** The receive client opens but is not ready yet. *)
Definition not_ready : Attempt (T := demo) :=
  {| open_fault := None; ready_probe := Ok (T := demo) false;
     arrivals := [1]; work_fault := None |}.

(** The consumer [one_delivered 1] after a [receive] during which both
    attempts timed out: it has reopened once, at the offset of event [1]. *)
Definition retried_consumer : World (T := demo) :=
  final (receive false 300 None (20, 20) timing_out (one_delivered 1)).

(** The source of partition [0] of an event hub. *)
Definition partition_source : list Ascii.ascii :=
  String.list_ascii_of_string
    (String.String (Ascii.Ascii true false true false false true true false)
       (String.String slash
          (String.String
             (Ascii.Ascii false false false false true true false false)
             String.EmptyString))).

(** * Properties *)

Section Properties.

Context {T : Collaborators}.

Lemma keeps_ret {X A} (g : Consumer -> X) (a : A) : keeps g (ret a).
Proof. intro w; reflexivity. Qed.

Lemma keeps_raise {X A} (g : Consumer -> X) (e : Exn) :
  keeps g (raise (A := A) e).
Proof. intro w; reflexivity. Qed.

Lemma keeps_get {X} (g : Consumer -> X) : keeps g get.
Proof. intro w; reflexivity. Qed.

Lemma keeps_get_world {X} (g : Consumer -> X) : keeps g get_world.
Proof. intro w; reflexivity. Qed.

Lemma keeps_emit {X} (g : Consumer -> X) (e : Effect) : keeps g (emit e).
Proof. intro w; reflexivity. Qed.

Lemma keeps_call {X} (g : Consumer -> X) s step eff :
  keeps g (call s step eff).
Proof.
  intro w; unfold call.
  destruct (open_fault s) as [[step' e]|]; [|reflexivity].
  destruct (OpenStep_eqb step step'); reflexivity.
Qed.

Lemma keeps_modify {X} (g : Consumer -> X) (f : Consumer -> Consumer) :
  (forall c, g (f c) = g c) -> keeps g (modify f).
Proof. intros H w; simpl; apply H. Qed.

Lemma keeps_bind {X A B} (g : Consumer -> X) (m : M A) (k : A -> M B) :
  keeps g m -> (forall a, keeps g (k a)) -> keeps g (bind m k).
Proof.
  intros Hm Hk w; unfold bind.
  specialize (Hm w); destruct (m w) as [w' [a|e]]; simpl in *.
  - rewrite Hk; exact Hm.
  - exact Hm.
Qed.

Lemma silent_ret {A} (a : A) : silent (ret a).
Proof. intro w; exists []; simpl; rewrite !app_nil_r; auto. Qed.

Lemma silent_raise {A} (e : Exn) : silent (raise (A := A) e).
Proof. intro w; exists []; simpl; rewrite !app_nil_r; auto. Qed.

Lemma silent_get : silent get.
Proof. intro w; exists []; simpl; rewrite !app_nil_r; auto. Qed.

Lemma silent_get_world : silent get_world.
Proof. intro w; exists []; simpl; rewrite !app_nil_r; auto. Qed.

Lemma silent_modify (f : Consumer -> Consumer) :
  (forall c, _message_buffer (f c) = _message_buffer c) ->
  silent (modify f).
Proof.
  intros H w; exists []; simpl; rewrite !app_nil_r, H; auto.
Qed.

Lemma silent_bind {A B} (m : M A) (k : A -> M B) :
  silent m -> (forall a, silent (k a)) -> silent (bind m k).
Proof.
  intros Hm Hk w; unfold bind.
  destruct (Hm w) as (t & Ht & Hd & Hb).
  destruct (m w) as [w' [a|e]]; simpl in *.
  - destruct (Hk a w') as (t' & Ht' & Hd' & Hb').
    exists (t ++ t'); repeat split.
    + rewrite Ht', Ht, app_assoc; reflexivity.
    + unfold deliveries in *; rewrite flat_map_app, Hd, Hd'; reflexivity.
    + unfold enqueued in *; rewrite Hb', Hb, flat_map_app, app_assoc.
      reflexivity.
  - exists t; auto.
Qed.

Lemma silent_emit (e : Effect) :
  deliveries [e] = [] -> enqueued [e] = [] -> silent (emit e).
Proof.
  intros Hd He w; exists [e]; simpl trace; simpl self.
  rewrite He, app_nil_r; auto.
Qed.

Lemma silent_call s step eff :
  deliveries eff = [] -> enqueued eff = [] -> silent (call s step eff).
Proof.
  intros Hd He w; unfold call.
  assert (Hyes : exists t,
             trace {| self := self w; trace := trace w ++ eff |}
             = trace w ++ t /\ deliveries t = [] /\
             _message_buffer (self w) = _message_buffer (self w) ++ enqueued t).
  { exists eff; simpl; rewrite He, app_nil_r; auto. }
  assert (Hno : exists t,
             trace w = trace w ++ t /\ deliveries t = [] /\
             _message_buffer (self w) = _message_buffer (self w) ++ enqueued t).
  { exists []; simpl; rewrite !app_nil_r; auto. }
  destruct (open_fault s) as [[step' e]|]; [|exact Hyes].
  destruct (OpenStep_eqb step step'); [exact Hno | exact Hyes].
Qed.

Lemma silent_message_received m : silent (_message_received m).
Proof.
  intro w; exists [MessageReceived m]; simpl; auto.
Qed.

(** The frame rules, applied as far as they go. *)
Ltac frame :=
  repeat first
    [ apply keeps_ret | apply keeps_raise | apply keeps_get
    | apply keeps_get_world | apply keeps_emit | apply keeps_call
    | apply keeps_modify; intro; reflexivity
    | apply silent_ret | apply silent_raise | apply silent_get
    | apply silent_get_world | apply silent_message_received
    | apply silent_emit; reflexivity
    | apply silent_call; reflexivity
    | apply silent_modify; intro; reflexivity
    | apply keeps_bind; [|intro]
    | apply silent_bind; [|intro]
    | match goal with
      | |- keeps _ (if ?b then _ else _) => destruct b
      | |- silent (if ?b then _ else _) => destruct b
      | |- keeps _ (match ?x with _ => _ end) => destruct x
      | |- silent (match ?x with _ => _ end) => destruct x
      end ].

Lemma silent_deliver_arrivals ms : silent (deliver_arrivals ms).
Proof. induction ms; simpl; frame; assumption. Qed.

Lemma silent_open s : silent (_open s).
Proof. unfold _open, _create_handler, client_ready; frame. Qed.

Lemma silent_do_work s : silent (do_work s).
Proof.
  unfold do_work.
  apply silent_bind; [apply silent_get|intro].
  apply silent_bind; [apply silent_emit; reflexivity|intro].
  apply silent_bind; [apply silent_deliver_arrivals|intro].
  destruct (work_fault s); [apply silent_raise | apply silent_ret].
Qed.

Lemma silent_try_body s : silent (try_body s).
Proof.
  unfold try_body.
  apply silent_bind; [apply silent_open|].
  intros [|]; [apply silent_do_work | apply silent_ret].
Qed.

Lemma silent_handle_exception e : silent (_handle_exception e).
Proof. unfold _handle_exception; frame. Qed.

Ltac frame_with H :=
  destruct H as (Hrun & Hready & Hhandler & Hbuffer);
  repeat first
    [ apply keeps_ret | apply keeps_raise | apply keeps_get
    | apply keeps_emit | apply keeps_call
    | apply keeps_modify; intro; auto
    | apply keeps_bind; [|intro]
    | match goal with
      | |- keeps _ (if ?b then _ else _) => destruct b
      | |- keeps _ (match ?x with _ => _ end) => destruct x
      end ].

Lemma keeps_deliver_arrivals {X} (g : Consumer -> X) ms :
  untouched_by_pull g -> keeps g (deliver_arrivals ms).
Proof.
  intro H; induction ms; simpl.
  - apply keeps_ret.
  - apply keeps_bind; [|intro; assumption].
    unfold _message_received; frame_with H.
Qed.

Lemma keeps_open {X} (g : Consumer -> X) s :
  untouched_by_pull g -> keeps g (_open s).
Proof.
  intro H; unfold _open, _create_handler, client_ready; frame_with H.
Qed.

Lemma keeps_try_body {X} (g : Consumer -> X) s :
  untouched_by_pull g -> keeps g (try_body s).
Proof.
  intro H; unfold try_body.
  apply keeps_bind; [apply keeps_open; assumption|].
  intros [|]; [|apply keeps_ret].
  unfold do_work.
  apply keeps_bind; [apply keeps_get|intro].
  apply keeps_bind; [apply keeps_emit|intro].
  apply keeps_bind; [apply keeps_deliver_arrivals; assumption|intro].
  destruct (work_fault s); [apply keeps_raise | apply keeps_ret].
Qed.

Lemma keeps_handle_exception {X} (g : Consumer -> X) e :
  untouched_by_pull g -> keeps g (_handle_exception e).
Proof. intro H; unfold _handle_exception; frame_with H. Qed.

Lemma untouched_offset : untouched_by_pull _offset.
Proof. repeat split. Qed.

Lemma untouched_last : untouched_by_pull _last_received_event.
Proof. repeat split. Qed.

Lemma untouched_closed : untouched_by_pull closed.
Proof. repeat split. Qed.

Lemma untouched_config : untouched_by_pull config_max_retries.
Proof. repeat split. Qed.

Lemma untouched_start : untouched_by_pull _receive_start_time.
Proof. repeat split. Qed.

Lemma after_pull_refl w : after_pull w w.
Proof.
  repeat split; exists []; simpl; rewrite !app_nil_r; auto.
Qed.

Lemma after_pull_trans w1 w2 w3 :
  after_pull w1 w2 -> after_pull w2 w3 -> after_pull w1 w3.
Proof.
  intros ((t & Ht & Hd & Hb) & Hl & Hc & Hm & Hs)
         ((t' & Ht' & Hd' & Hb') & Hl' & Hc' & Hm' & Hs').
  repeat split; try congruence.
  exists (t ++ t'); repeat split.
  - rewrite Ht', Ht, app_assoc; reflexivity.
  - unfold deliveries in *; rewrite flat_map_app, Hd, Hd'; reflexivity.
  - unfold enqueued in *; rewrite Hb', Hb, flat_map_app, app_assoc.
    reflexivity.
Qed.

Lemma after_pull_of_frames {A} (m : M A) :
  silent m ->
  (forall X (g : Consumer -> X), untouched_by_pull g -> keeps g m) ->
  forall w, after_pull w (fst (m w)).
Proof.
  intros Hs Hk w; repeat split.
  - apply Hs.
  - apply (Hk _ _ untouched_last).
  - apply (Hk _ _ untouched_closed).
  - apply (Hk _ _ untouched_config).
  - apply (Hk _ _ untouched_start).
Qed.

Lemma after_pull_try_body s w : after_pull w (fst (try_body s w)).
Proof.
  apply after_pull_of_frames;
    [apply silent_try_body | intros; apply keeps_try_body; assumption].
Qed.

Lemma after_pull_handle_exception e w :
  after_pull w (fst (_handle_exception e w)).
Proof.
  apply after_pull_of_frames;
    [apply silent_handle_exception
    | intros; apply keeps_handle_exception; assumption].
Qed.

Lemma handle_exception_returns e w :
  snd (_handle_exception e w) = Ok (handled e).
Proof.
  unfold _handle_exception, bind, get, modify, emit, ret.
  destruct (handling_closes e); [|reflexivity].
  destruct (truthy_handler (_handler (self w))); reflexivity.
Qed.

Lemma after_pull_rewind p w :
  after_pull w {| self := set_offset p (self w); trace := trace w |}.
Proof.
  repeat split; exists []; simpl; rewrite !app_nil_r; auto.
Qed.

Lemma after_pull_except_clause max_retries r e w :
  after_pull w (fst (except_clause max_retries r e w)).
Proof.
  unfold except_clause.
  destruct (is_import_error e); [apply after_pull_refl|].
  destruct (check_link_stolen e); [apply after_pull_refl|].
  destruct (negb (running (self w))); [apply after_pull_refl|].
  match goal with
  | |- context [_handle_exception e ?w1] =>
      assert (H1 : after_pull w w1)
        by (destruct (_last_received_event (self w));
            [apply after_pull_rewind | apply after_pull_refl]);
      pose proof (after_pull_handle_exception e w1) as H2;
      pose proof (handle_exception_returns e w1) as H3;
      destruct (_handle_exception e w1) as [w2 [x|x]]
  end; simpl in *; [|discriminate].
  destruct (r + 1 >? max_retries); simpl;
    apply (after_pull_trans H1 H2).
Qed.

Lemma after_pull_loop_body max_retries r s w :
  after_pull w (fst (loop_body max_retries r s w)).
Proof.
  unfold loop_body.
  pose proof (after_pull_try_body s w) as H.
  destruct (try_body s w) as [w1 [[]|e]]; simpl in *; [exact H|].
  apply (after_pull_trans H), after_pull_except_clause.
Qed.

Lemma after_pull_run max_retries env k r w ps x wf rf :
  run max_retries env k r w ps x wf rf -> after_pull w wf.
Proof.
  induction 1;
    try apply after_pull_refl;
    try (match goal with
         | H : loop_body _ _ _ ?w = _ |- _ =>
             pose proof (after_pull_loop_body max_retries r (env k) w)
               as Hstep;
             rewrite H in Hstep; simpl in Hstep
         end).
  - exact Hstep.
  - exact Hstep.
  - exact Hstep.
  - exact (after_pull_trans Hstep IHrun).
Qed.

(** A pass that ends in [continue] has counted one retry and stays within
    the budget. *)
Lemma loop_body_continue max_retries r s w w' r' :
  loop_body max_retries r s w = (w', (Continue, r')) ->
  r' = r + 1 /\ r' <= max_retries.
Proof.
  unfold loop_body, except_clause.
  destruct (try_body s w) as [w1 [[]|e]]; [discriminate|].
  destruct (is_import_error e); [discriminate|].
  destruct (check_link_stolen e); [discriminate|].
  destruct (negb (running (self w1))); [discriminate|].
  destruct (_handle_exception e _) as [w2 [x|x]]; [|discriminate].
  destruct (r + 1 >? max_retries) eqn:Hgt; [discriminate|].
  intro H; inversion H; subst; split; [reflexivity|].
  rewrite Z.gtb_ltb, Z.ltb_ge in Hgt; exact Hgt.
Qed.

(** With the fuel [pull] gives it, the loop function computes the loop
    relation: it never runs out of fuel. *)
Lemma retry_loop_run fuel : forall max_retries env k r log w,
  (Z.to_nat (max_retries + 1 - r) <= fuel)%nat ->
  exists ps,
    passes (retry_loop fuel max_retries env k r log w) = log ++ ps /\
    run max_retries env k r w ps
      (exit (retry_loop fuel max_retries env k r log w))
      (world (retry_loop fuel max_retries env k r log w))
      (retried (retry_loop fuel max_retries env k r log w)).
Proof.
  induction fuel as [|fuel IH]; intros max_retries env k r log w Hfuel;
    simpl; destruct (r <=? max_retries) eqn:Hguard;
    try (exists []; simpl; rewrite app_nil_r; split;
         [reflexivity | apply run_guard; apply Z.leb_gt; exact Hguard]).
  - apply Z.leb_le in Hguard; lia.
  - apply Z.leb_le in Hguard.
    destruct (loop_body max_retries r (env k) w) as [w' [[| | |e] r']]
      eqn:Hbody; simpl.
    + eexists; split; [reflexivity | apply run_break; assumption].
    + eexists; split; [reflexivity | apply run_return; assumption].
    + destruct (loop_body_continue _ _ _ _ Hbody) as [-> Hle].
      destruct (IH max_retries env (S k) (r + 1)
                  (log ++ [{| p_index := k; p_retried := r;
                              p_before := w |}]) w') as (ps & Hps & Hrun);
        [lia|].
      exists ({| p_index := k; p_retried := r; p_before := w |} :: ps).
      split.
      * rewrite Hps, <- app_assoc; reflexivity.
      * eapply run_continue; eassumption.
    + eexists; split; [reflexivity | apply run_raise; assumption].
Qed.

Lemma pull_run max_batch_size now env w :
  let p := pull max_batch_size now env w in
  if len w <? max_batch_size then
    run (config_max_retries (self w)) env 0 0 (anchored now w)
      (passes p) (exit p) (world p) (retried p)
  else p = {| exit := Completed; world := anchored now w; retried := 0;
              passes := [] |}.
Proof.
  unfold pull; fold (anchored now w).
  change (len (anchored now w)) with (len w).
  destruct (len w <? max_batch_size); [|reflexivity].
  destruct (retry_loop_run (fuel := Z.to_nat (config_max_retries (self w) + 1))
              (config_max_retries (self w)) env 0 0 [] (anchored now w))
    as (ps & Hps & Hrun); [lia|].
  simpl in Hps; rewrite Hps; exact Hrun.
Qed.

(** ** The flush *)

Lemma last_of_snoc {A} (l : list A) (x : A) : last_of (l ++ [x]) = Some x.
Proof.
  induction l as [|a l IH]; [reflexivity|].
  simpl; rewrite IH; destruct (l ++ [x]) eqn:E; [|reflexivity].
  destruct l; discriminate.
Qed.

Lemma last_of_app {A} (l l' : list A) :
  last_of (l ++ l') =
  match last_of l' with Some x => Some x | None => last_of l end.
Proof.
  induction l' as [|x l' IH] using rev_ind.
  - rewrite app_nil_r; reflexivity.
  - rewrite app_assoc, !last_of_snoc; reflexivity.
Qed.

Lemma next_message_in_buffer_spec w message rest :
  _message_buffer (self w) = message :: rest ->
  _next_message_in_buffer w =
  ({| self := set_last_received_event (Some (convert message))
                (set_message_buffer rest (self w));
      trace := trace w |}, Ok (convert message)).
Proof.
  intro H; unfold _next_message_in_buffer, bind, get; rewrite H.
  reflexivity.
Qed.

Lemma collect_spec taken : forall rest events w,
  _message_buffer (self w) = taken ++ rest ->
  collect (length taken) events w =
  (dequeued taken rest w, Ok (events ++ map convert taken)).
Proof.
  induction taken as [|m taken IH]; intros rest events w Hbuf; simpl.
  - rewrite app_nil_r; reflexivity.
  - unfold bind at 1.
    rewrite (next_message_in_buffer_spec w Hbuf).
    rewrite (IH rest); [|reflexivity].
    rewrite <- app_assoc; simpl.
    destruct taken; reflexivity.
Qed.

Lemma batch_size_fits max_batch_size w :
  (Z.to_nat (Z.min max_batch_size (len w))
   <= length (_message_buffer (self w)))%nat.
Proof. unfold len; lia. Qed.

(** What a flush does: it dequeues a prefix [taken] of the buffer, hands
    its conversion to the callback in one call and clears the anchor.  It
    never raises. *)
Lemma flush_spec batch max_batch_size w :
  exists taken rest d,
    _message_buffer (self w) = taken ++ rest /\
    events_of d = map convert taken /\
    flush batch max_batch_size w =
    ({| self := set_receive_start_time None (self (dequeued taken rest w));
        trace := trace w ++ [OnEventReceived d] |}, Ok tt).
Proof.
  unfold flush, bind at 1, get_world.
  destruct batch.
  - set (n := Z.to_nat (Z.min max_batch_size (len w))).
    pose proof (batch_size_fits max_batch_size w) as Hn; fold n in Hn.
    exists (firstn n (_message_buffer (self w))),
           (skipn n (_message_buffer (self w))),
           (Batch (map convert (firstn n (_message_buffer (self w))))).
    split; [symmetry; apply firstn_skipn|].
    split; [reflexivity|].
    unfold bind.
    pose proof (collect_spec (firstn n (_message_buffer (self w)))
                  (skipn n (_message_buffer (self w))) [] w) as Hc.
    rewrite length_firstn, Nat.min_l in Hc by exact Hn.
    rewrite Hc by (symmetry; apply firstn_skipn).
    simpl; destruct (firstn n (_message_buffer (self w))); reflexivity.
  - unfold nonempty.
    destruct (_message_buffer (self w)) as [|m rest] eqn:Hbuf.
    + exists [], [], (Single None); repeat split.
    + exists [m], rest, (Single (Some (convert m))); repeat split.
      unfold bind.
      rewrite (next_message_in_buffer_spec w Hbuf); reflexivity.
Qed.

Lemma loop_body_retryable max_retries r s w w1 e :
  try_body s w = (w1, Err e) ->
  retryable e ->
  running (self w1) = true ->
  loop_body max_retries r s w =
  (fst (_handle_exception e (rewound w1)),
   (if r + 1 >? max_retries then Raise (handled e) else Continue, r + 1)).
Proof.
  intros Htry [Himp Hstolen] Hrun.
  unfold loop_body, except_clause; rewrite Htry, Himp, Hstolen, Hrun.
  simpl negb; cbv iota; fold (rewound w1).
  pose proof (handle_exception_returns e (rewound w1)) as Hret.
  destruct (_handle_exception e (rewound w1)) as [w2 [x|x]];
    simpl in *; [|discriminate].
  inversion Hret; subst.
  destruct (r + 1 >? max_retries); reflexivity.
Qed.

Lemma loop_body_fatal max_retries r s w w1 e e' :
  try_body s w = (w1, Err e) ->
  (is_import_error e = true /\ e' = e) \/
  (is_import_error e = false /\ check_link_stolen e = Some e') ->
  loop_body max_retries r s w = (w1, (Raise e', r)).
Proof.
  intros Htry H; unfold loop_body, except_clause; rewrite Htry.
  destruct H as [[-> ->]|[-> ->]]; reflexivity.
Qed.

Lemma run_head max_retries env k r w pass ps x wf rf :
  run max_retries env k r w (pass :: ps) x wf rf ->
  pass = {| p_index := k; p_retried := r; p_before := w |} /\
  r <= max_retries.
Proof. intro H; inversion H; subst; auto. Qed.

Lemma run_nil max_retries env k r w x wf rf :
  run max_retries env k r w [] x wf rf -> max_retries < r.
Proof. intro H; inversion H; subst; assumption. Qed.

(** Every pass of a loop is one application of [loop_body]: the last one
    decides how the loop ends, each other one ends in [continue] and hands
    its state and counter to the next. *)
Lemma run_split max_retries env k r w ps x wf rf :
  run max_retries env k r w ps x wf rf ->
  forall pre pass post, ps = pre ++ pass :: post ->
    match post with
    | [] =>
        exists c,
          loop_body max_retries (p_retried pass) (env (p_index pass))
            (p_before pass) = (wf, (c, rf)) /\
          exit_of c = Some x
    | next :: _ =>
        loop_body max_retries (p_retried pass) (env (p_index pass))
          (p_before pass) = (p_before next, (Continue, p_retried next))
    end.
Proof.
  induction 1 as [k r w Hr | k r w w' r' Hr Hb | k r w w' r' Hr Hb
                 | k r w w' r' e Hr Hb
                 | k r w w' r' ps x wf rf Hr Hb Hrun IH];
    intros pre pass post Heq.
  - destruct pre; discriminate.
  - destruct pre as [|? [|? ?]]; try discriminate.
    inversion Heq; subst; simpl; eauto.
  - destruct pre as [|? [|? ?]]; try discriminate.
    inversion Heq; subst; simpl; eauto.
  - destruct pre as [|? [|? ?]]; try discriminate.
    inversion Heq; subst; simpl; eauto.
  - destruct pre as [|first pre].
    + inversion Heq; subst; simpl.
      destruct post as [|next post].
      * apply run_nil in Hrun.
        destruct (loop_body_continue _ _ _ _ Hb); lia.
      * destruct (run_head Hrun) as [-> _]; exact Hb.
    + inversion Heq; subst. apply (IH pre); reflexivity.
Qed.


(** What [pull] does, in terms of the loop relation. *)
Lemma pull_cases max_batch_size now env w :
  let p := pull max_batch_size now env w in
  (len w < max_batch_size /\
   run (config_max_retries (self w)) env 0 0 (anchored now w)
     (passes p) (exit p) (world p) (retried p)) \/
  (max_batch_size <= len w /\
   p = {| exit := Completed; world := anchored now w; retried := 0;
          passes := [] |}).
Proof.
  pose proof (pull_run max_batch_size now env w) as H; simpl in *.
  destruct (len w <? max_batch_size) eqn:E.
  - left; split; [apply Z.ltb_lt; exact E | exact H].
  - right; split; [apply Z.ltb_ge; exact E | exact H].
Qed.

Lemma run_never_out_of_fuel max_retries env k r w ps x wf rf :
  run max_retries env k r w ps x wf rf -> x <> OutOfFuel.
Proof. induction 1; try discriminate; assumption. Qed.

Lemma pull_never_out_of_fuel max_batch_size now env w :
  exit (pull max_batch_size now env w) <> OutOfFuel.
Proof.
  destruct (pull_cases max_batch_size now env w) as [[_ H]|[_ H]].
  - exact (run_never_out_of_fuel H).
  - rewrite H; discriminate.
Qed.


(** A pass whose [try] block raises a fatal exception is the last one: the
    loop ends there, in the state the [try] block left, with the counter
    the pass started with. *)
Lemma fatal_pass_ends_pull max_batch_size now env w pass w1 e e' :
  let p := pull max_batch_size now env w in
  In pass (passes p) ->
  try_body (env (p_index pass)) (p_before pass) = (w1, Err e) ->
  (is_import_error e = true /\ e' = e) \/
  (is_import_error e = false /\ check_link_stolen e = Some e') ->
  exit p = Propagated e' /\ world p = w1 /\
  retried p = p_retried pass /\
  (exists earlier, passes p = earlier ++ [pass]) /\
  _offset (self w1) = _offset (self (p_before pass)).
Proof.
  intros p Hin Htry Hfatal.
  pose proof (loop_body_fatal (config_max_retries (self w))
                (p_retried pass) _ _ Htry Hfatal) as Hbody.
  assert (Hoff : _offset (self w1) = _offset (self (p_before pass))).
  { pose proof (keeps_try_body (env (p_index pass)) untouched_offset
                  (p_before pass)) as H.
    rewrite Htry in H; exact H. }
  destruct (pull_cases max_batch_size now env w) as [[_ Hrun]|[_ Hp]];
    fold p in Hrun || fold p in Hp.
  - destruct (in_split _ _ Hin) as (pre & post & Heq).
    pose proof (run_split Hrun pre pass post Heq) as Hsplit.
    destruct post as [|next post].
    + destruct Hsplit as (c & Hc & Hexit).
      rewrite Hbody in Hc; inversion Hc; subst c.
      simpl in Hexit; inversion Hexit.
      repeat split; auto; try congruence. exists pre; exact Heq.
    + rewrite Hbody in Hsplit; discriminate.
  - rewrite Hp in Hin; contradiction.
Qed.

(** ** One call of [receive] *)

(** What the retried pull of a [receive] call leaves of the state the call
    started in. *)
Lemma pull_frame max_batch_size now env w :
  let p := pull max_batch_size now env w in
  (exists t, trace (world p) = trace w ++ t /\ deliveries t = [] /\
             _message_buffer (self (world p))
             = _message_buffer (self w) ++ enqueued t) /\
  _last_received_event (self (world p)) = _last_received_event (self w) /\
  closed (self (world p)) = closed (self w) /\
  _receive_start_time (self (world p))
  = Some (start_or_now (_receive_start_time (self w)) now).
Proof.
  intro p.
  assert (H : after_pull (anchored now w) (world p)).
  { destruct (pull_cases max_batch_size now env w) as [[_ Hrun]|[_ Hp]];
      fold p in Hrun || fold p in Hp.
    - exact (after_pull_run Hrun).
    - rewrite Hp; apply after_pull_refl. }
  destruct H as (Ht & Hl & Hc & _ & Hs).
  repeat split; assumption.
Qed.

(** The four ways a [receive] call ends. *)
Lemma receive_cases batch max_batch_size max_wait_time clock env w :
  let r := receive batch max_batch_size max_wait_time clock env w in
  let p := pull max_batch_size (fst clock) env w in
  let deadline :=
    start_or_now (_receive_start_time (self w)) (fst clock)
    + wait_or_0 max_wait_time in
  pulled r = p /\
  ((exists e, exit p = Propagated e /\ outcome r = Raised e /\
              final r = world p) \/
   (exit p = ExitByClose /\ outcome r = Returned /\ final r = world p) \/
   (exit p = Completed /\
    flush_condition max_batch_size max_wait_time deadline (snd clock)
      (world p) = false /\
    outcome r = Returned /\ final r = world p) \/
   (exit p = Completed /\
    flush_condition max_batch_size max_wait_time deadline (snd clock)
      (world p) = true /\
    outcome r = Returned /\
    exists taken rest d,
      _message_buffer (self (world p)) = taken ++ rest /\
      events_of d = map convert taken /\
      final r =
      {| self := set_receive_start_time None
                   (self (dequeued taken rest (world p)));
         trace := trace (world p) ++ [OnEventReceived d] |})).
Proof.
  intros r p deadline; unfold r, receive; fold p; fold deadline.
  pose proof (pull_never_out_of_fuel max_batch_size (fst clock) env w)
    as Hfuel; fold p in Hfuel.
  destruct (exit p) as [| |e|] eqn:Hexit.
  - destruct (flush_condition max_batch_size max_wait_time deadline
                (snd clock) (world p)) eqn:Hcond.
    + destruct (flush_spec batch max_batch_size (world p))
        as (taken & rest & d & Hbuf & Hev & Hflush).
      rewrite Hflush; simpl.
      split; [reflexivity|]. right; right; right.
      repeat split; try reflexivity.
      exists taken, rest, d; auto.
    + simpl; split; [reflexivity|]. right; right; left; auto.
  - simpl; split; [reflexivity|]. right; left; auto.
  - simpl; split; [reflexivity|]. left; exists e; auto.
  - contradiction.
Qed.

(** [receive] always ends: it returns or it raises. *)
Lemma receive_never_diverges batch max_batch_size max_wait_time clock env
    (w : World) :
  outcome (receive batch max_batch_size max_wait_time clock env w)
  <> Diverged.
Proof.
  destruct (receive_cases batch max_batch_size max_wait_time clock env w)
    as (_ & [(e & _ & -> & _) | [(_ & -> & _) | [(_ & _ & -> & _)
       | (_ & _ & -> & _)]]]); discriminate.
Qed.

Lemma deliveries_app (t t' : list Effect) :
  deliveries (t ++ t') = deliveries t ++ deliveries t'.
Proof. apply flat_map_app. Qed.

Lemma enqueued_app (t t' : list Effect) :
  enqueued (t ++ t') = enqueued t ++ enqueued t'.
Proof. apply flat_map_app. Qed.

Lemma delivered_app (t t' : list Effect) :
  delivered (t ++ t') = delivered t ++ delivered t'.
Proof. unfold delivered; rewrite deliveries_app; apply flat_map_app. Qed.

Lemma delivered_silent (t : list Effect) :
  deliveries t = [] -> delivered t = [].
Proof. unfold delivered; intros ->; reflexivity. Qed.

Lemma buffer_dequeued taken rest w :
  _message_buffer (self w) = taken ++ rest ->
  _message_buffer (self (dequeued taken rest w)) = rest.
Proof. destruct taken; simpl; auto. Qed.

Lemma last_of_cons {A} (x : A) (l : list A) :
  exists y, last_of (x :: l) = Some y.
Proof.
  revert x; induction l as [|a l IH]; intro x; [exists x; reflexivity|].
  destruct (IH a) as [y Hy]; exists y; exact Hy.
Qed.

Lemma last_dequeued taken rest w :
  _last_received_event (self (dequeued taken rest w)) =
  match last_of (map convert taken) with
  | Some ev => Some ev
  | None => _last_received_event (self w)
  end.
Proof.
  destruct taken as [|m taken]; [reflexivity|].
  destruct (last_of_cons (convert m) (map convert taken)) as [y Hy].
  change (map convert (m :: taken)) with (convert m :: map convert taken).
  rewrite Hy; unfold dequeued; simpl _last_received_event.
  change (map convert (m :: taken)) with (convert m :: map convert taken).
  exact Hy.
Qed.

(** The two invariants hold in every state a consumer can be in. *)
Lemma pull_keeps_invariants max_batch_size now env w :
  in_order w /\ cursor_at_last_delivered w ->
  in_order (world (pull max_batch_size now env w)) /\
  cursor_at_last_delivered (world (pull max_batch_size now env w)).
Proof.
  intros [Hord Hcur].
  destruct (pull_frame max_batch_size now env w)
    as ((t & Ht & Hd & Hb) & Hl & _).
  unfold in_order, cursor_at_last_delivered in *.
  rewrite Ht, Hb, Hl, delivered_app, enqueued_app, !map_app.
  rewrite (delivered_silent _ Hd), app_nil_r, app_assoc, Hord.
  auto.
Qed.

Lemma flush_keeps_invariants taken rest d w :
  _message_buffer (self w) = taken ++ rest ->
  events_of d = map convert taken ->
  in_order w /\ cursor_at_last_delivered w ->
  let w' := {| self := set_receive_start_time None
                         (self (dequeued taken rest w));
               trace := trace w ++ [OnEventReceived d] |} in
  in_order w' /\ cursor_at_last_delivered w'.
Proof.
  intros Hbuf Hev [Hord Hcur] w'.
  unfold in_order, cursor_at_last_delivered in *; simpl.
  rewrite (buffer_dequeued _ _ _ Hbuf), (last_dequeued taken rest w).
  rewrite delivered_app, enqueued_app.
  change (delivered [OnEventReceived d]) with (events_of d ++ []).
  change (enqueued [OnEventReceived d]) with (@nil Message).
  rewrite !app_nil_r, Hev, last_of_app, <- Hord, Hbuf, map_app, Hcur.
  rewrite app_assoc; auto.
Qed.

Lemma receive_keeps_invariants batch max_batch_size max_wait_time clock env
    w :
  in_order w /\ cursor_at_last_delivered w ->
  in_order (final (receive batch max_batch_size max_wait_time clock env w))
  /\ cursor_at_last_delivered
       (final (receive batch max_batch_size max_wait_time clock env w)).
Proof.
  intro Hinv.
  pose proof (pull_keeps_invariants max_batch_size (fst clock) env Hinv)
    as Hpull.
  destruct (receive_cases batch max_batch_size max_wait_time clock env w)
    as (_ & [(e & _ & _ & ->) | [(_ & _ & ->) | [(_ & _ & _ & ->)
       | (_ & _ & _ & taken & rest & d & Hbuf & Hev & ->)]]]);
    try exact Hpull.
  exact (flush_keeps_invariants _ _ _ Hbuf Hev Hpull).
Qed.

Lemma reachable_invariants w :
  reachable w -> in_order w /\ cursor_at_last_delivered w.
Proof.
  induction 1 as [| w batch mbs mwt clock env _ IH | w m _ IH | w _ IH].
  - split; reflexivity.
  - apply receive_keeps_invariants; exact IH.
  - destruct IH as [Hord Hcur].
    unfold in_order, cursor_at_last_delivered in *; simpl.
    rewrite delivered_app, enqueued_app, !map_app; simpl.
    rewrite app_nil_r, app_assoc, Hord; auto.
  - destruct IH as [Hord Hcur].
    unfold in_order, cursor_at_last_delivered, close, bind, get, modify,
      emit, ret in *.
    destruct (truthy_handler (_handler (self w))); simpl;
      rewrite ?delivered_app, ?enqueued_app; simpl;
      rewrite ?app_nil_r; auto.
Qed.

(** ** The flush condition *)

Lemma truthy_wait_configured max_wait_time :
  truthy_wait max_wait_time = true <-> configured max_wait_time.
Proof.
  unfold truthy_wait, configured; destruct max_wait_time as [t|].
  - rewrite negb_true_iff, Z.eqb_neq; split.
    + intro H; exists t; auto.
    + intros (t' & Heq & Hne); inversion Heq; subst; exact Hne.
  - split; [discriminate | intros (t' & Heq & _); discriminate].
Qed.

Lemma nonempty_spec (w : World) :
  nonempty w = true <-> _message_buffer (self w) <> [].
Proof.
  unfold nonempty; destruct (_message_buffer (self w)); split;
    congruence.
Qed.

(** The test of the code is the condition of the specification, once the
    anchor is set. *)
Lemma flush_condition_iff max_batch_size max_wait_time now w start :
  _receive_start_time (self w) = Some start ->
  flush_condition max_batch_size max_wait_time
    (start + wait_or_0 max_wait_time) now w = true
  <-> flush_now max_batch_size max_wait_time now w.
Proof.
  intro Hstart; unfold flush_condition, flush_now.
  rewrite !orb_true_iff, !andb_true_iff, negb_true_iff, Z.geb_le,
    Z.leb_le, nonempty_spec, <- not_true_iff_false.
  rewrite truthy_wait_configured.
  split.
  - intros [[H|H]|[Hle (t & -> & Hne)]]; auto.
    right; right; exists t, start; repeat split; auto.
    unfold wait_or_0 in Hle; destruct (Z.eqb_spec t 0); [contradiction|].
    exact Hle.
  - intros [H|[H|(t & start' & -> & Hne & Hs & Hle)]]; auto.
    right; split; [|exists t; auto].
    rewrite Hstart in Hs; inversion Hs; subst.
    unfold wait_or_0; destruct (Z.eqb_spec t 0); [contradiction|].
    exact Hle.
Qed.


(** ** The claims *)

(** C1. In every state a consumer can reach, by any number of [receive]
    calls in batch or single mode, with messages enqueued by
    [_message_received] during the pulls or between the calls, the events
    passed to the callback so far, concatenated over its calls, are the
    conversion of a prefix of the enqueued messages, in enqueue order: what
    was enqueued is what was delivered followed by what is still
    buffered. *)
Theorem delivery_preserves_enqueue_order (w : World) :
  reachable w ->
  map convert (enqueued (trace w))
  = delivered (trace w) ++ map convert (_message_buffer (self w)).
Proof.
  intro H; symmetry; exact (proj1 (reachable_invariants H)).
Qed.

(** C7. When [receive] raises, the callback was not called during the call,
    and the buffer is the one the call started with, in order, followed by
    the messages that arrived during the call: nothing was dequeued. *)
Theorem error_leaves_buffer_intact batch max_batch_size max_wait_time clock
    env (w : World) e :
  let r := receive batch max_batch_size max_wait_time clock env w in
  outcome r = Raised e ->
  deliveries (trace (final r)) = deliveries (trace w) /\
  _last_received_event (self (final r)) = _last_received_event (self w) /\
  exists arrived,
    _message_buffer (self (final r)) = _message_buffer (self w) ++ arrived /\
    enqueued (trace (final r)) = enqueued (trace w) ++ arrived.
Proof.
  intros r Hraised.
  destruct (pull_frame max_batch_size (fst clock) env w)
    as ((t & Ht & Hd & Hb) & Hl & _).
  destruct (receive_cases batch max_batch_size max_wait_time clock env w)
    as (_ & [(e' & _ & _ & Hfin) | [(_ & Hout & _) | [(_ & _ & Hout & _)
       | (_ & _ & Hout & _)]]]);
    fold r in Hfin || (fold r in Hout; rewrite Hout in Hraised;
                       discriminate).
  rewrite Hfin, Ht, Hb, Hl, deliveries_app, enqueued_app, Hd, app_nil_r.
  repeat split. exists (enqueued t); auto.
Qed.

(** A [receive] call that reaches its flush test calls the callback exactly
    when the condition of the specification holds. *)
Lemma receive_flushes_iff batch max_batch_size max_wait_time clock env
    (w : World) :
  let r := receive batch max_batch_size max_wait_time clock env w in
  exit (pulled r) = Completed ->
  (flush_now max_batch_size max_wait_time (snd clock) (world (pulled r))
   <-> handler_invoked w (final r)) /\
  (~ flush_now max_batch_size max_wait_time (snd clock) (world (pulled r))
   -> outcome r = Returned /\ final r = world (pulled r)).
Proof.
  intros r Hexit.
  destruct (pull_frame max_batch_size (fst clock) env w)
    as ((t & Ht & Hd & Hb) & _ & _ & Hstart).
  pose proof (flush_condition_iff max_batch_size max_wait_time (snd clock)
                (world (pull max_batch_size (fst clock) env w)) Hstart)
    as Hiff.
  assert (Hquiet : deliveries
                     (trace (world (pull max_batch_size (fst clock) env w)))
                   = deliveries (trace w))
    by (rewrite Ht, deliveries_app, Hd, app_nil_r; reflexivity).
  destruct (receive_cases batch max_batch_size max_wait_time clock env w)
    as (Hp & Hcases); fold r in Hp, Hcases; rewrite Hp in *.
  destruct Hcases
    as [(e' & Hx & _) | [(Hx & _) | [(_ & Hcond & Hout & Hfin)
       | (_ & Hcond & Hout & taken & rest & d & _ & _ & Hfin)]]];
    try (rewrite Hx in Hexit; discriminate).
  - assert (Hno : ~ flush_now max_batch_size max_wait_time (snd clock)
                    (world (pull max_batch_size (fst clock) env w)))
      by (rewrite <- Hiff, Hcond; discriminate).
    split; [|auto].
    split; [contradiction|].
    intros (d & Hd'); rewrite Hfin, Hquiet in Hd'.
    apply (f_equal (@length _)) in Hd'; rewrite length_app in Hd'.
    simpl in Hd'; lia.
  - assert (Hyes : flush_now max_batch_size max_wait_time (snd clock)
                     (world (pull max_batch_size (fst clock) env w)))
      by (rewrite <- Hiff; exact Hcond).
    split; [|contradiction].
    split; [|auto].
    intros _; exists d.
    rewrite Hfin; simpl; rewrite deliveries_app, Hquiet; reflexivity.
Qed.

(** C3, as amended.  In a [receive] call whose retried pull is left by
    [break] or by the loop guard (it neither raises nor returns on a closed
    consumer), the callback is called if and only if the flush condition
    holds of the state after the pull; when it does not hold the call
    returns in that very state: the callback is not called and the buffer
    is as the pull left it. *)
Theorem flush_decision batch max_batch_size max_wait_time clock env
    (w : World) :
  let r := receive batch max_batch_size max_wait_time clock env w in
  exit (pulled r) = Completed ->
  (flush_now max_batch_size max_wait_time (snd clock) (world (pulled r))
   <-> handler_invoked w (final r)) /\
  (~ flush_now max_batch_size max_wait_time (snd clock) (world (pulled r))
   -> outcome r = Returned /\ final r = world (pulled r)).
Proof.
  exact (receive_flushes_iff batch max_batch_size max_wait_time clock env w).
Qed.

Lemma flush_single_nonempty max_batch_size (w : World) message rest :
  _message_buffer (self w) = message :: rest ->
  flush false max_batch_size w =
  ({| self := set_receive_start_time None
                (set_last_received_event (Some (convert message))
                   (set_message_buffer rest (self w)));
      trace := trace w ++ [OnEventReceived (Single (Some (convert message)))]
   |}, Ok tt).
Proof.
  intro H; unfold flush, get_world, nonempty, bind.
  rewrite H, (next_message_in_buffer_spec w H); reflexivity.
Qed.

Lemma flush_single_empty max_batch_size (w : World) :
  _message_buffer (self w) = [] ->
  flush false max_batch_size w =
  ({| self := set_receive_start_time None (self w);
      trace := trace w ++ [OnEventReceived (Single None)] |}, Ok tt).
Proof.
  intro H; unfold flush, get_world, nonempty, bind.
  rewrite H; reflexivity.
Qed.

(** C9, as amended.  In single mode, in a [receive] call whose retried
    pull is left by [break] or by the loop guard (it neither raises nor
    returns from inside the loop), so that the flush test is reached, and
    in which the flush condition holds of the state after the pull: if the
    buffer is non-empty, its first message and no other is dequeued and
    converted, the last received event becomes that event, and the callback
    is called once, with it; if the buffer is empty, the callback is called
    once, with [None], and buffer and cursor stay as they are.  In both
    cases the anchor is cleared and the call returns. *)
Theorem single_mode_flush max_batch_size max_wait_time clock env
    (w : World) :
  let r := receive false max_batch_size max_wait_time clock env w in
  let w1 := world (pulled r) in
  exit (pulled r) = Completed ->
  flush_now max_batch_size max_wait_time (snd clock) w1 ->
  outcome r = Returned /\
  _receive_start_time (self (final r)) = None /\
  match _message_buffer (self w1) with
  | message :: rest =>
      _message_buffer (self (final r)) = rest /\
      _last_received_event (self (final r)) = Some (convert message) /\
      trace (final r)
      = trace w1 ++ [OnEventReceived (Single (Some (convert message)))]
  | [] =>
      _message_buffer (self (final r)) = [] /\
      _last_received_event (self (final r)) = _last_received_event (self w1)
      /\ trace (final r) = trace w1 ++ [OnEventReceived (Single None)]
  end.
Proof.
  intros r w1 Hexit Hflush.
  destruct (pull_frame max_batch_size (fst clock) env w)
    as (_ & _ & _ & Hstart).
  destruct (receive_cases false max_batch_size max_wait_time clock env w)
    as (Hp & _); fold r in Hp.
  unfold w1 in *; rewrite Hp in *; clear Hp w1.
  apply (flush_condition_iff max_batch_size max_wait_time (snd clock) _
           Hstart) in Hflush.
  unfold r, receive; rewrite Hexit, Hflush.
  destruct (_message_buffer
              (self (world (pull max_batch_size (fst clock) env w))))
    as [|message rest] eqn:Hbuf.
  - rewrite (flush_single_empty _ _ Hbuf); simpl; auto.
  - rewrite (flush_single_nonempty _ _ Hbuf); simpl; auto.
Qed.

Lemma flush_now_without_wait max_batch_size max_wait_time now (w : World) :
  truthy_wait max_wait_time = false ->
  flush_now max_batch_size max_wait_time now w <->
  max_batch_size <= len w \/ _message_buffer (self w) <> [].
Proof.
  intro Hfalse.
  assert (Hnot : ~ configured max_wait_time)
    by (rewrite <- truthy_wait_configured, Hfalse; discriminate).
  unfold flush_now; split.
  - intros [H|[[H _]|(t & start & Ht & Hne & _)]]; auto.
    exfalso; apply Hnot; exists t; auto.
  - intros [H|H]; auto.
Qed.

(** C10, as amended.  [receive] with [max_wait_time = 0] is [receive] with
    [max_wait_time] unset: same outcome, same final state.  With either,
    the flush test does not look at the clock: it holds exactly when the
    buffer has reached [max_batch_size] or is non-empty.  So a call that
    reaches the test (its retried pull is left by [break] or by the loop
    guard) calls the callback exactly in that case: it does when the buffer
    is non-empty, and with an empty buffer it does exactly when
    [max_batch_size <= 0], and in single mode that call is the no-event
    signal [None].  A call that does not reach the test, because its pull
    raises or returns from inside the loop, does not call the callback,
    whatever is buffered, and ends in the state the pull left. *)
Theorem zero_wait_is_no_wait batch max_batch_size clock env (w : World) :
  receive batch max_batch_size (Some 0) clock env w
  = receive batch max_batch_size None clock env w /\
  (forall deadline now (w' : World),
      flush_condition max_batch_size (Some 0) deadline now w'
      = (len w' >=? max_batch_size) || nonempty w') /\
  (let r := receive batch max_batch_size (Some 0) clock env w in
   exit (pulled r) = Completed ->
   (handler_invoked w (final r) <->
    max_batch_size <= len (world (pulled r)) \/
    _message_buffer (self (world (pulled r))) <> [])) /\
  (let r := receive batch max_batch_size (Some 0) clock env w in
   exit (pulled r) = Completed ->
   (_message_buffer (self (world (pulled r))) <> [] ->
    handler_invoked w (final r)) /\
   (_message_buffer (self (world (pulled r))) = [] ->
    (handler_invoked w (final r) <-> max_batch_size <= 0))) /\
  (let r := receive false max_batch_size (Some 0) clock env w in
   exit (pulled r) = Completed ->
   _message_buffer (self (world (pulled r))) = [] ->
   max_batch_size <= 0 ->
   trace (final r)
   = trace (world (pulled r)) ++ [OnEventReceived (Single None)]) /\
  (let r := receive batch max_batch_size (Some 0) clock env w in
   exit (pulled r) <> Completed ->
   ~ handler_invoked w (final r) /\ final r = world (pulled r)).
Proof.
  assert (Hreached :
            let r := receive batch max_batch_size (Some 0) clock env w in
            exit (pulled r) = Completed ->
            (handler_invoked w (final r) <->
             max_batch_size <= len (world (pulled r)) \/
             _message_buffer (self (world (pulled r))) <> [])).
  { intros r Hexit.
    destruct (receive_flushes_iff batch max_batch_size (Some 0) clock env w
                Hexit) as [Hiff _]; fold r in Hiff.
    rewrite <- Hiff; apply flush_now_without_wait; reflexivity. }
  assert (Hcond : forall deadline now (w' : World),
             flush_condition max_batch_size (Some 0) deadline now w'
             = (len w' >=? max_batch_size) || nonempty w').
  { intros deadline now w'; unfold flush_condition; simpl.
    rewrite andb_true_r, andb_false_r, orb_false_r; reflexivity. }
  split; [reflexivity|].
  split; [exact Hcond|].
  split; [exact Hreached|].
  split; [|split].
  - intros r Hexit; pose proof (Hreached Hexit) as Hiff; fold r in Hiff.
    split.
    + intro Hne; apply Hiff; right; exact Hne.
    + intro Hnil; rewrite Hiff; unfold len; rewrite Hnil; simpl.
      split; [intros [H|H]; [exact H | contradiction] | auto].
  - intros r Hexit Hnil Hle.
    destruct (receive_cases false max_batch_size (Some 0) clock env w)
      as (Hp & _); fold r in Hp; rewrite Hp in *; clear Hp.
    unfold r, receive; rewrite Hexit, Hcond; unfold len, nonempty.
    rewrite Hnil; simpl length; simpl Z.of_nat.
    replace (0 >=? max_batch_size) with true
      by (symmetry; rewrite Z.geb_le; exact Hle).
    simpl orb; cbv iota.
    rewrite (flush_single_empty _ _ Hnil); reflexivity.
  - intros r Hexit.
    destruct (pull_frame max_batch_size (fst clock) env w)
      as ((t & Ht & Hd & _) & _).
    destruct (receive_cases batch max_batch_size (Some 0) clock env w)
      as (Hp & Hcases); fold r in Hp, Hcases; rewrite Hp in *.
    destruct Hcases
      as [(e' & _ & _ & Hfin) | [(_ & _ & Hfin) | [(Hx & _)
         | (Hx & _)]]]; try contradiction;
      (split; [|exact Hfin]);
      intros (d & Hd'); rewrite Hfin, Ht, deliveries_app, Hd, app_nil_r in Hd';
      apply (f_equal (@length _)) in Hd'; rewrite length_app in Hd';
      simpl in Hd'; lia.
Qed.

(** A loop all of whose passes fail retryably, and which makes at least one
    pass, makes exactly as many passes as the budget still allows and ends
    by raising what [_handle_exception] made of the last failure. *)
Lemma run_all_fail max_retries env k r w ps x wf rf :
  run max_retries env k r w ps x wf rf ->
  ps <> [] ->
  (forall pass, In pass ps -> fails_retryably env pass) ->
  Z.of_nat (length ps) = max_retries + 1 - r /\
  exists last w1 e,
    last_of ps = Some last /\
    try_body (env (p_index last)) (p_before last) = (w1, Err e) /\
    x = Propagated (handled e).
Proof.
  induction 1 as [k r w Hr | k r w w' r' Hr Hb | k r w w' r' Hr Hb
                 | k r w w' r' e Hr Hb
                 | k r w w' r' ps x wf rf Hr Hb Hrun IH];
    intros Hne Hall; [contradiction| | | |];
    destruct (Hall {| p_index := k; p_retried := r; p_before := w |}
                (or_introl eq_refl)) as (w1 & e1 & Htry & Hretry & Hrunning);
    simpl in Htry;
    rewrite (loop_body_retryable max_retries r _ _ Htry Hretry Hrunning)
      in Hb;
    destruct (r + 1 >? max_retries) eqn:Hgt; try discriminate.
  - inversion Hb; subst.
    rewrite Z.gtb_ltb, Z.ltb_lt in Hgt.
    split; [simpl length; lia|].
    exists {| p_index := k; p_retried := r; p_before := w |}, w1, e1.
    auto.
  - inversion Hb; subst.
    assert (Hps : ps <> []).
    { intros ->; apply run_nil in Hrun.
      rewrite Z.gtb_ltb, Z.ltb_ge in Hgt; lia. }
    destruct IH as (Hlen & last & w2 & e2 & Hlast & Htry2 & Hx);
      [exact Hps | intros pass Hin; apply Hall; right; exact Hin |].
    split; [simpl length; lia|].
    exists last, w2, e2; repeat split; auto.
    destruct ps; [contradiction | exact Hlast].
Qed.

(** C2. With [max_retries = N], if a [receive] call makes an attempt and
    every attempt it makes fails, inside [_open] or [do_work], with an
    exception that is neither an [ImportError] nor a stolen link, while
    [running] is set when the exception is caught, then it makes exactly
    [N + 1] attempts and raises what [_handle_exception] returned for the
    failure of the last one. *)
Theorem retry_bound batch max_batch_size max_wait_time clock env
    (w : World) :
  let r := receive batch max_batch_size max_wait_time clock env w in
  passes (pulled r) <> [] ->
  (forall pass, In pass (passes (pulled r)) -> fails_retryably env pass) ->
  Z.of_nat (length (passes (pulled r))) = config_max_retries (self w) + 1 /\
  exists last w1 e,
    last_of (passes (pulled r)) = Some last /\
    try_body (env (p_index last)) (p_before last) = (w1, Err e) /\
    outcome r = Raised (handled e).
Proof.
  intros r Hne Hall.
  destruct (receive_cases batch max_batch_size max_wait_time clock env w)
    as (Hp & Hcases); fold r in Hp, Hcases; rewrite Hp in *.
  destruct (pull_cases max_batch_size (fst clock) env w)
    as [[_ Hrun]|[_ Hnil]]; [|rewrite Hnil in Hne; contradiction].
  destruct (run_all_fail Hrun Hne Hall)
    as (Hlen & last & w1 & e & Hlast & Htry & Hx).
  split; [lia|].
  exists last, w1, e; repeat split; auto.
  destruct Hcases
    as [(e' & Hx' & Hout & _) | [(Hx' & _) | [(Hx' & _) | (Hx' & _)]]];
    rewrite Hx in Hx'; try discriminate.
  inversion Hx'; subst; exact Hout.
Qed.

(** A fatal failure, seen from the caller of [receive]. *)
Lemma fatal_pass_ends_receive batch max_batch_size max_wait_time clock env
    (w : World) pass w1 e e' :
  let r := receive batch max_batch_size max_wait_time clock env w in
  In pass (passes (pulled r)) ->
  try_body (env (p_index pass)) (p_before pass) = (w1, Err e) ->
  (is_import_error e = true /\ e' = e) \/
  (is_import_error e = false /\ check_link_stolen e = Some e') ->
  outcome r = Raised e' /\
  (exists earlier, passes (pulled r) = earlier ++ [pass]) /\
  retried (pulled r) = p_retried pass /\
  final r = w1 /\
  _offset (self (final r)) = _offset (self (p_before pass)).
Proof.
  intros r Hin Htry Hfatal.
  destruct (receive_cases batch max_batch_size max_wait_time clock env w)
    as (Hp & Hcases); fold r in Hp, Hcases; rewrite Hp in *.
  destruct (fatal_pass_ends_pull max_batch_size (fst clock) env w pass
              Hin Htry Hfatal) as (Hx & Hw & Hr & Hlast & Hoff).
  destruct Hcases
    as [(e'' & Hx' & Hout & Hfin) | [(Hx' & _) | [(Hx' & _) | (Hx' & _)]]];
    rewrite Hx in Hx'; try discriminate.
  inversion Hx'; subst e''.
  rewrite Hfin, Hw; repeat split; auto.
Qed.

(** C5. When the [try] block of any pass of a [receive] call raises an
    exception in which the transport recognises a stolen link, that pass is
    the last: [receive] raises what [check_link_stolen] raised, whatever is
    left of the retry budget, [retried_times] is what it was when the pass
    began, and [_offset] is what it was when the pass began. *)
Theorem link_stolen_is_raised_at_once batch max_batch_size max_wait_time
    clock env (w : World) pass w1 e stolen :
  let r := receive batch max_batch_size max_wait_time clock env w in
  In pass (passes (pulled r)) ->
  try_body (env (p_index pass)) (p_before pass) = (w1, Err e) ->
  is_import_error e = false ->
  check_link_stolen e = Some stolen ->
  outcome r = Raised stolen /\
  (exists earlier, passes (pulled r) = earlier ++ [pass]) /\
  retried (pulled r) = p_retried pass /\
  _offset (self (final r)) = _offset (self (p_before pass)).
Proof.
  intros r Hin Htry Himp Hstolen.
  destruct (fatal_pass_ends_receive batch max_batch_size max_wait_time
              clock env w pass (e' := stolen) Hin Htry)
    as (Hout & Hlast & Hr & _ & Hoff); auto.
Qed.

(** C8. When the [try] block of any pass of a [receive] call raises an
    [ImportError], that pass is the last: [receive] raises that very
    exception, [retried_times] is what it was when the pass began, and
    [_offset] is what it was when the pass began. *)
Theorem import_error_is_raised_at_once batch max_batch_size max_wait_time
    clock env (w : World) pass w1 e :
  let r := receive batch max_batch_size max_wait_time clock env w in
  In pass (passes (pulled r)) ->
  try_body (env (p_index pass)) (p_before pass) = (w1, Err e) ->
  is_import_error e = true ->
  outcome r = Raised e /\
  (exists earlier, passes (pulled r) = earlier ++ [pass]) /\
  retried (pulled r) = p_retried pass /\
  _offset (self (final r)) = _offset (self (p_before pass)).
Proof.
  intros r Hin Htry Himp.
  destruct (fatal_pass_ends_receive batch max_batch_size max_wait_time
              clock env w pass (e' := e) Hin Htry)
    as (Hout & Hlast & Hr & _ & Hoff); auto.
Qed.

Lemma created_app (t t' : list Effect) :
  created (t ++ t') = created t ++ created t'.
Proof. apply flat_map_app. Qed.


(** ** Receiving on a closed consumer *)

Lemma open_when_not_running s (w : World) :
  running (self w) = false ->
  open_fault s = None ->
  exists t,
    trace (fst (_open s w))
    = trace w ++ stale w ++ [CreateReceiveClient (handler_of w); HandlerOpen]
      ++ t.
Proof.
  intros Hrun Hfault.
  unfold _open, _create_handler, client_ready, call, bind, get, modify,
    emit, ret, raise, stale, handler_of.
  rewrite Hrun, Hfault; simpl.
  destruct (truthy_handler (_handler (self w)));
    destruct (ready_probe s) as [[|]|e]; simpl;
    rewrite ?app_nil_r, <- ?app_assoc; simpl;
    eexists; try reflexivity;
    rewrite ?app_nil_r; reflexivity.
Qed.

Lemma silent_extends {A} (m : M A) (w : World) :
  silent m -> exists t, trace (fst (m w)) = trace w ++ t.
Proof. intro H; destruct (H w) as (t & Ht & _); exists t; exact Ht. Qed.

Lemma after_pull_extends (w w' : World) :
  after_pull w w' -> exists t, trace w' = trace w ++ t.
Proof. intros ((t & Ht & _) & _); exists t; exact Ht. Qed.

Lemma try_body_when_not_running s (w : World) :
  running (self w) = false ->
  open_fault s = None ->
  exists t,
    trace (fst (try_body s w))
    = trace w ++ stale w ++ [CreateReceiveClient (handler_of w); HandlerOpen]
      ++ t.
Proof.
  intros Hrun Hfault.
  destruct (open_when_not_running s w Hrun Hfault) as (t & Ht).
  unfold try_body, bind.
  destruct (_open s w) as [w1 [[|]|e]]; simpl in *; try (exists t; exact Ht).
  destruct (silent_extends w1 (silent_do_work s)) as (t' & Ht').
  exists (t ++ t'); rewrite Ht', Ht, <- !app_assoc; reflexivity.
Qed.

Lemma loop_body_extends max_retries r s (w : World) :
  exists t,
    trace (fst (loop_body max_retries r s w))
    = trace (fst (try_body s w)) ++ t.
Proof.
  unfold loop_body.
  destruct (try_body s w) as [w1 [[]|e]]; simpl.
  - exists []; rewrite app_nil_r; reflexivity.
  - apply after_pull_extends, after_pull_except_clause.
Qed.

Lemma run_first max_retries env k r (w : World) ps x wf rf :
  run max_retries env k r w ps x wf rf ->
  r <= max_retries ->
  after_pull (fst (loop_body max_retries r (env k) w)) wf.
Proof.
  intros H Hle; inversion H; subst; try lia;
    match goal with
    | Hb : loop_body _ _ _ _ = _ |- _ => rewrite Hb; simpl
    end;
    try apply after_pull_refl.
  eapply after_pull_run; eassumption.
Qed.

Lemma opens_app (t t' : list Effect) : opens (t ++ t') = opens t ++ opens t'.
Proof. apply filter_app. Qed.

Lemma receive_extends batch max_batch_size max_wait_time clock env
    (w : World) :
  let r := receive batch max_batch_size max_wait_time clock env w in
  closed (self (final r)) = closed (self (world (pulled r))) /\
  exists t, trace (final r) = trace (world (pulled r)) ++ t /\ opens t = [].
Proof.
  intro r.
  destruct (receive_cases batch max_batch_size max_wait_time clock env w)
    as (Hp & Hcases); fold r in Hp, Hcases; rewrite Hp.
  destruct Hcases
    as [(e & _ & _ & ->) | [(_ & _ & ->) | [(_ & _ & _ & ->)
       | (_ & _ & _ & taken & rest & d & _ & _ & ->)]]];
    try (split; [reflexivity | exists []; rewrite app_nil_r; auto]).
  split; [destruct taken; reflexivity|].
  exists [OnEventReceived d]; auto.
Qed.

(** C6, as amended.  After [close()] has set [closed] and cleared
    [running], [closed] stays set through every [receive] call, but
    [receive] does not look at it.  A call that finds [max_batch_size]
    messages or more in the buffer constructs and opens nothing.  A call
    that finds fewer, with [max_retries >= 0], enters [_open], which tests
    [running] only: unless one of the collaborators raises on the way, it
    closes the handler that is still there, constructs a receive client at
    the current position and opens it. *)
Theorem closed_consumer_reopens batch max_batch_size max_wait_time clock env
    (w : World) :
  let r := receive batch max_batch_size max_wait_time clock env w in
  running (self w) = false ->
  closed (self w) = true ->
  closed (self (final r)) = true /\
  (max_batch_size <= len w -> opens (trace (final r)) = opens (trace w)) /\
  (len w < max_batch_size ->
   0 <= config_max_retries (self w) ->
   open_fault (env 0%nat) = None ->
   exists t,
     trace (final r)
     = trace w ++ stale w ++ [CreateReceiveClient (handler_of w); HandlerOpen]
       ++ t).
Proof.
  intros r Hrun Hclosed.
  destruct (receive_extends batch max_batch_size max_wait_time clock env w)
    as (Hc & t & Ht & Hopens); fold r in Hc, Ht.
  destruct (receive_cases batch max_batch_size max_wait_time clock env w)
    as (Hp & _); fold r in Hp; rewrite Hp in *.
  destruct (pull_frame max_batch_size (fst clock) env w)
    as (_ & _ & Hc' & _).
  split; [rewrite Hc, Hc'; exact Hclosed|].
  destruct (pull_cases max_batch_size (fst clock) env w)
    as [[Hlt Hpull]|[Hge Hpull]].
  - split; [intro; lia|].
    intros _ Hbudget Hfault.
    pose proof (run_first Hpull Hbudget) as Hafter.
    apply after_pull_extends in Hafter; destruct Hafter as (t2 & Ht2).
    destruct (loop_body_extends (config_max_retries (self w)) 0
                (env 0%nat) (anchored (fst clock) w)) as (t1 & Ht1).
    destruct (try_body_when_not_running (env 0%nat)
                (anchored (fst clock) w) Hrun Hfault) as (t0 & Ht0).
    exists (t0 ++ t1 ++ t2 ++ t).
    rewrite Ht, Ht2, Ht1, Ht0; simpl trace.
    unfold stale, handler_of; simpl.
    rewrite <- !app_assoc; reflexivity.
  - split; [|intro; lia].
    intros _; rewrite Ht, Hpull, opens_app, Hopens, app_nil_r.
    reflexivity.
Qed.

(** ** More of [receive]: the batch flush, the anchor, the attempts *)

(** A batch flush in full: the callback gets the conversion of the first
    [min(max_batch_size, len)] messages, the others stay. *)
Lemma flush_batch max_batch_size (w : World) :
  let n := Z.to_nat (Z.min max_batch_size (len w)) in
  let taken := firstn n (_message_buffer (self w)) in
  let rest := skipn n (_message_buffer (self w)) in
  flush true max_batch_size w =
  ({| self := set_receive_start_time None (self (dequeued taken rest w));
      trace := trace w ++ [OnEventReceived (Batch (map convert taken))] |},
   Ok tt).
Proof.
  cbv zeta; set (n := Z.to_nat (Z.min max_batch_size (len w))).
  pose proof (batch_size_fits max_batch_size w) as Hn; fold n in Hn.
  unfold flush, bind at 1, get_world; fold n; unfold bind.
  pose proof (collect_spec (firstn n (_message_buffer (self w)))
                (skipn n (_message_buffer (self w))) [] w) as Hc.
  rewrite length_firstn, Nat.min_l in Hc by exact Hn.
  rewrite Hc by (symmetry; apply firstn_skipn).
  simpl; destruct (firstn n (_message_buffer (self w))); reflexivity.
Qed.

(** X1. In batch mode, when the flush test of a [receive] call is reached
    and the flush condition holds, the callback is called once, with the
    conversion of the first [min(max_batch_size, len)] buffered messages in
    buffer order; the others stay in the buffer, in order; the last received
    event becomes the last of the batch (it stays when the batch is empty),
    the anchor is cleared and the call returns.  The batch never holds more
    than [max_batch_size] events when that is not negative, and it empties
    a buffer of at most [max_batch_size] messages. *)
Theorem batch_mode_flush max_batch_size max_wait_time clock env
    (w : World) :
  let r := receive true max_batch_size max_wait_time clock env w in
  let w1 := world (pulled r) in
  let n := Z.to_nat (Z.min max_batch_size (len w1)) in
  let batch := map convert (firstn n (_message_buffer (self w1))) in
  exit (pulled r) = Completed ->
  flush_now max_batch_size max_wait_time (snd clock) w1 ->
  outcome r = Returned /\
  trace (final r) = trace w1 ++ [OnEventReceived (Batch batch)] /\
  _message_buffer (self (final r)) = skipn n (_message_buffer (self w1)) /\
  _last_received_event (self (final r))
  = match last_of batch with
    | Some ev => Some ev
    | None => _last_received_event (self w1)
    end /\
  _receive_start_time (self (final r)) = None /\
  (0 <= max_batch_size -> Z.of_nat (length batch) <= max_batch_size) /\
  (len w1 <= max_batch_size -> _message_buffer (self (final r)) = []).
Proof.
  intros r w1 n batch Hexit Hflush.
  destruct (pull_frame max_batch_size (fst clock) env w)
    as (_ & _ & _ & Hstart).
  destruct (receive_cases true max_batch_size max_wait_time clock env w)
    as (Hp & _); fold r in Hp.
  unfold batch, n, w1 in *; rewrite Hp in *; clear Hp.
  apply (flush_condition_iff max_batch_size max_wait_time (snd clock) _
           Hstart) in Hflush.
  set (wp := world (pull max_batch_size (fst clock) env w)) in *.
  assert (Hfin : final r =
                 {| self := set_receive_start_time None
                              (self (dequeued
                                       (firstn (Z.to_nat
                                                  (Z.min max_batch_size
                                                     (len wp)))
                                          (_message_buffer (self wp)))
                                       (skipn (Z.to_nat
                                                 (Z.min max_batch_size
                                                    (len wp)))
                                          (_message_buffer (self wp)))
                                       wp));
                    trace := trace wp
                             ++ [OnEventReceived
                                   (Batch
                                      (map convert
                                         (firstn (Z.to_nat
                                                    (Z.min max_batch_size
                                                       (len wp)))
                                            (_message_buffer (self wp)))))]
                 |} /\ outcome r = Returned).
  { unfold r, receive; fold wp; rewrite Hexit, Hflush.
    rewrite (flush_batch max_batch_size wp); split; reflexivity. }
  destruct Hfin as [Hfin Hout]; rewrite Hfin; simpl.
  split; [exact Hout|]. split; [reflexivity|].
  rewrite buffer_dequeued by (symmetry; apply firstn_skipn).
  rewrite last_dequeued.
  split; [reflexivity|]. split; [reflexivity|]. split; [reflexivity|].
  split.
  - intro Hpos; rewrite length_map, length_firstn; unfold len; lia.
  - intro Hle; apply skipn_all2; unfold len in *; lia.
Qed.

(** X2. With [max_batch_size <= 0] a batch [receive] never pulls, whatever
    the buffer holds and whatever [max_wait_time] is: it makes no attempt,
    calls the callback with the empty list, leaves the buffer and the cursor
    as they are and returns. *)
Theorem nonpositive_batch_size_delivers_nothing max_batch_size max_wait_time
    clock env (w : World) :
  let r := receive true max_batch_size max_wait_time clock env w in
  max_batch_size <= 0 ->
  outcome r = Returned /\
  passes (pulled r) = [] /\
  trace (final r) = trace w ++ [OnEventReceived (Batch [])] /\
  _message_buffer (self (final r)) = _message_buffer (self w) /\
  _last_received_event (self (final r)) = _last_received_event (self w).
Proof.
  intros r Hle.
  destruct (pull_cases max_batch_size (fst clock) env w)
    as [[Hlt _]|[_ Hpull]]; [unfold len in Hlt; lia|].
  unfold r, receive; rewrite Hpull; simpl exit; simpl world; cbv iota.
  assert (Hcond : flush_condition max_batch_size max_wait_time
                    (start_or_now (_receive_start_time (self w)) (fst clock)
                     + wait_or_0 max_wait_time) (snd clock)
                    (anchored (fst clock) w) = true).
  { unfold flush_condition.
    assert (H : (len (anchored (fst clock) w) >=? max_batch_size) = true)
      by (apply Z.geb_le; unfold len; lia).
    rewrite H; reflexivity. }
  rewrite Hcond, (flush_batch max_batch_size (anchored (fst clock) w)).
  assert (Hn : Z.to_nat (Z.min max_batch_size (len (anchored (fst clock) w)))
               = 0%nat) by (unfold len; lia).
  rewrite Hn; simpl; auto.
Qed.

(** X3. A [receive] call makes no attempt at all, that is calls neither
    [_open] nor [do_work], exactly when the buffer already holds
    [max_batch_size] messages or [max_retries] is negative; the state in
    which it reaches the flush test is then the one it started in, with the
    anchor set. *)
Theorem no_attempt_iff max_batch_size now env (w : World) :
  let p := pull max_batch_size now env w in
  (passes p = [] <->
   max_batch_size <= len w \/ config_max_retries (self w) < 0) /\
  (passes p = [] -> exit p = Completed /\ world p = anchored now w).
Proof.
  intro p.
  destruct (pull_cases max_batch_size now env w) as [[Hlt Hrun]|[Hge Hp]];
    fold p in Hrun || fold p in Hp.
  - split.
    + split.
      * intro Hnil; rewrite Hnil in Hrun; apply run_nil in Hrun; auto.
      * intros [H|H]; [lia|].
        inversion Hrun; subst; try lia; reflexivity.
    + intro Hnil; rewrite Hnil in Hrun; inversion Hrun; subst; auto.
  - rewrite Hp; simpl; split; [split; auto | auto].
Qed.

(** The anchor after a call. *)
Lemma anchor_after_receive batch max_batch_size max_wait_time clock env
    (w : World) :
  let r := receive batch max_batch_size max_wait_time clock env w in
  (handler_invoked w (final r) /\
   _receive_start_time (self (final r)) = None) \/
  (deliveries (trace (final r)) = deliveries (trace w) /\
   _receive_start_time (self (final r))
   = Some (start_or_now (_receive_start_time (self w)) (fst clock))).
Proof.
  intro r.
  destruct (pull_frame max_batch_size (fst clock) env w)
    as ((t & Ht & Hd & _) & _ & _ & Hstart).
  assert (Hquiet : deliveries
                     (trace (world (pull max_batch_size (fst clock) env w)))
                   = deliveries (trace w))
    by (rewrite Ht, deliveries_app, Hd, app_nil_r; reflexivity).
  destruct (receive_cases batch max_batch_size max_wait_time clock env w)
    as (_ & [(e & _ & _ & Hfin) | [(_ & _ & Hfin) | [(_ & _ & _ & Hfin)
       | (_ & _ & _ & taken & rest & d & _ & _ & Hfin)]]]);
    fold r in Hfin; rewrite Hfin; auto.
  left; split; [|reflexivity].
  exists d; simpl; rewrite deliveries_app, Hquiet; reflexivity.
Qed.

Lemma not_both (A : Type) (l : list A) (d : A) : l ++ [d] <> l.
Proof.
  intro H; apply (f_equal (@length _)) in H.
  rewrite length_app in H; simpl in H; lia.
Qed.

(** X4. The anchor of the deadline is taken once per flush cycle.  A call
    that calls the callback clears it.  A call that does not (it returns
    without flushing, or raises) leaves the anchor it found when that is set
    and not [0], and otherwise sets it to the time read at its start. *)
Theorem anchor_is_kept_until_flush batch max_batch_size max_wait_time clock
    env (w : World) :
  let r := receive batch max_batch_size max_wait_time clock env w in
  (handler_invoked w (final r) ->
   _receive_start_time (self (final r)) = None) /\
  (~ handler_invoked w (final r) ->
   (forall t, _receive_start_time (self w) = Some t -> t <> 0 ->
              _receive_start_time (self (final r)) = Some t) /\
   (_receive_start_time (self w) = None \/
    _receive_start_time (self w) = Some 0 ->
    _receive_start_time (self (final r)) = Some (fst clock))).
Proof.
  cbv zeta.
  destruct (anchor_after_receive batch max_batch_size max_wait_time clock
              env w) as [[Hinv Hnone]|[Hsame Hsome]].
  - split; [auto | contradiction].
  - split.
    + intros (d & Hd); rewrite Hsame in Hd.
      symmetry in Hd; destruct (@not_both _ _ _ Hd).
    + intros _; rewrite Hsome; split.
      * intros t -> Hne; unfold start_or_now.
        destruct (Z.eqb_spec t 0); [contradiction | reflexivity].
      * intros [->| ->]; reflexivity.
Qed.

(** X5. The deadline runs from the first call of a cycle.  If a call on a
    consumer without anchor reads the time [t0 <> 0] and does not call the
    callback, then a following call with [max_wait_time = wait <> 0] that
    reaches the flush test with fewer than [max_batch_size] messages calls
    the callback exactly when the time it reads at the test has reached
    [t0 + wait], however much later it started. *)
Theorem deadline_runs_from_first_call batch max_batch_size max_wait_time
    clock env batch' max_batch_size' wait clock' env' (w : World) :
  let r := receive batch max_batch_size max_wait_time clock env w in
  let r' := receive batch' max_batch_size' (Some wait) clock' env' (final r) in
  _receive_start_time (self w) = None ->
  fst clock <> 0 ->
  ~ handler_invoked w (final r) ->
  wait <> 0 ->
  exit (pulled r') = Completed ->
  len (world (pulled r')) < max_batch_size' ->
  (handler_invoked (final r) (final r') <-> fst clock + wait <= snd clock').
Proof.
  cbv zeta.
  set (w' := final (receive batch max_batch_size max_wait_time clock env w)).
  intros Hnone Hnow Hquiet HT Hexit Hlen.
  assert (Hanchor : _receive_start_time (self w') = Some (fst clock)).
  { destruct (anchor_after_receive batch max_batch_size max_wait_time clock
                env w) as [[Hinv _]|[_ Hsome]]; [contradiction|].
    unfold w'; rewrite Hsome, Hnone; reflexivity. }
  destruct (receive_flushes_iff batch' max_batch_size' (Some wait) clock' env'
              w' Hexit) as [Hiff _].
  rewrite <- Hiff.
  destruct (pull_frame max_batch_size' (fst clock') env' w')
    as (_ & _ & _ & Hstart).
  destruct (receive_cases batch' max_batch_size' (Some wait) clock' env' w')
    as (Hp & _); rewrite Hp in *.
  rewrite Hanchor in Hstart; unfold start_or_now in Hstart.
  destruct (Z.eqb_spec (fst clock) 0); [contradiction|].
  unfold flush_now; split.
  - intros [H|[[_ H]|(t & start & Ht & _ & Hs & Hle)]].
    + lia.
    + exfalso; apply H; exists wait; auto.
    + rewrite Hstart in Hs; inversion Hs; inversion Ht; subst; exact Hle.
  - intro Hle; right; right; exists wait, (fst clock); auto.
Qed.

Lemma run_length max_retries env k r (w : World) ps x wf rf :
  run max_retries env k r w ps x wf rf ->
  Z.of_nat (length ps) <= Z.max 0 (max_retries + 1 - r).
Proof.
  induction 1; simpl length; try lia.
  destruct (loop_body_continue _ _ _ _ H0); lia.
Qed.

Lemma loop_body_continue_fails max_retries r env k (w w' : World) r' :
  loop_body max_retries r (env k) w = (w', (Continue, r')) ->
  fails_retryably env {| p_index := k; p_retried := r; p_before := w |}.
Proof.
  unfold loop_body, except_clause, fails_retryably, retryable; simpl.
  destruct (try_body (env k) w) as [w1 [[]|e]]; [discriminate|].
  destruct (is_import_error e) eqn:Himp; [discriminate|].
  destruct (check_link_stolen e) eqn:Hstolen; [discriminate|].
  destruct (running (self w1)) eqn:Hrun; [|discriminate].
  intros _; exists w1, e; auto.
Qed.

(** X6. Whatever the transport does, one [receive] call makes at most
    [max_retries + 1] attempts, and it makes another attempt only after an
    attempt that failed with a retryable exception while [running] was
    set. *)
Theorem attempts_are_bounded max_batch_size now env (w : World) :
  let p := pull max_batch_size now env w in
  Z.of_nat (length (passes p))
  <= Z.max 0 (config_max_retries (self w) + 1) /\
  (forall pre pass next post,
      passes p = pre ++ pass :: next :: post -> fails_retryably env pass).
Proof.
  intro p.
  destruct (pull_cases max_batch_size now env w) as [[_ Hrun]|[_ Hp]];
    fold p in Hrun || fold p in Hp.
  - split.
    + pose proof (run_length Hrun); lia.
    + intros pre pass next post Heq.
      pose proof (run_split Hrun pre pass (next :: post) Heq) as Hstep.
      simpl in Hstep.
      destruct pass as [k r w0]; simpl in *.
      exact (loop_body_continue_fails _ _ _ _ _ Hstep).
  - rewrite Hp; simpl; split; [lia|].
    intros pre pass next post Heq; destruct pre; discriminate.
Qed.

(** A pass that does not end in [continue] is the last one, and decides how
    the pull ends. *)
Lemma pass_that_ends_pull max_batch_size now env (w : World) pass w' c r' x :
  let p := pull max_batch_size now env w in
  In pass (passes p) ->
  loop_body (config_max_retries (self w)) (p_retried pass)
    (env (p_index pass)) (p_before pass) = (w', (c, r')) ->
  exit_of c = Some x ->
  exit p = x /\ world p = w' /\ retried p = r' /\
  exists earlier, passes p = earlier ++ [pass].
Proof.
  intros p Hin Hbody Hexit.
  destruct (pull_cases max_batch_size now env w) as [[_ Hrun]|[_ Hp]];
    fold p in Hrun || fold p in Hp.
  - destruct (in_split _ _ Hin) as (pre & post & Heq).
    pose proof (run_split Hrun pre pass post Heq) as Hsplit.
    destruct post as [|next post].
    + destruct Hsplit as (c' & Hc & Hx).
      rewrite Hbody in Hc; inversion Hc; subst.
      rewrite Hexit in Hx; inversion Hx; subst.
      repeat split; auto. exists pre; exact Heq.
    + rewrite Hbody in Hsplit; inversion Hsplit; subst; discriminate.
  - rewrite Hp in Hin; contradiction.
Qed.

Lemma receive_after_pull batch max_batch_size max_wait_time clock env
    (w : World) :
  let r := receive batch max_batch_size max_wait_time clock env w in
  pulled r = pull max_batch_size (fst clock) env w /\
  (exit (pulled r) = ExitByClose ->
   outcome r = Returned /\ final r = world (pulled r)).
Proof.
  intro r.
  destruct (receive_cases batch max_batch_size max_wait_time clock env w)
    as (Hp & Hcases); fold r in Hp, Hcases.
  split; [exact Hp|]; rewrite Hp; intro Hx.
  destruct Hcases
    as [(e & Hx' & _) | [(_ & Hout & Hfin) | [(Hx' & _) | (Hx' & _)]]];
    try (rewrite Hx in Hx'; discriminate); auto.
Qed.

(** X7. When the [try] block of a pass raises an exception that is neither
    an [ImportError] nor a stolen link while [running] is not set (a failure
    on the way to opening is of that kind), [receive] swallows it: it
    returns normally at once, the pass is the last, the exception is not
    handled and not counted as a retry, the position is not rewound, and
    the callback is not called. *)
Theorem failure_while_not_running_is_swallowed batch max_batch_size
    max_wait_time clock env (w : World) pass w1 e :
  let r := receive batch max_batch_size max_wait_time clock env w in
  In pass (passes (pulled r)) ->
  try_body (env (p_index pass)) (p_before pass) = (w1, Err e) ->
  retryable e ->
  running (self w1) = false ->
  outcome r = Returned /\
  final r = w1 /\
  (exists earlier, passes (pulled r) = earlier ++ [pass]) /\
  retried (pulled r) = p_retried pass /\
  _offset (self (final r)) = _offset (self (p_before pass)) /\
  deliveries (trace (final r)) = deliveries (trace w).
Proof.
  intros r Hin Htry [Himp Hstolen] Hrun.
  destruct (receive_after_pull batch max_batch_size max_wait_time clock env
              w) as (Hp & Hret); fold r in Hp, Hret.
  rewrite Hp in Hin.
  assert (Hbody : loop_body (config_max_retries (self w)) (p_retried pass)
                    (env (p_index pass)) (p_before pass)
                  = (w1, (Return, p_retried pass))).
  { unfold loop_body, except_clause.
    rewrite Htry, Himp, Hstolen, Hrun; reflexivity. }
  destruct (pass_that_ends_pull max_batch_size (fst clock) env w pass Hin
              Hbody eq_refl) as (Hx & Hw & Hr & Hlast).
  rewrite <- Hp in Hx, Hw, Hr, Hlast.
  destruct (Hret Hx) as (Hout & Hfin).
  rewrite Hfin, Hw.
  repeat split; auto.
  - pose proof (keeps_try_body (env (p_index pass)) untouched_offset
                  (p_before pass)) as H.
    rewrite Htry in H; exact H.
  - rewrite <- Hw, Hp.
    destruct (pull_frame max_batch_size (fst clock) env w)
      as ((t & Ht & Hd & _) & _).
    rewrite Ht, deliveries_app, Hd, app_nil_r; reflexivity.
Qed.

(** [_open] calls no [do_work] and leaves the buffer alone. *)
Lemma open_not_ready s (w : World) :
  open_fault s = None ->
  ready_probe s = Ok false ->
  running (self w) = false \/ handler_ready (self w) = false ->
  exists w1,
    _open s w = (w1, Ok false) /\
    running (self w1) = true /\
    handler_ready (self w1) = false /\
    _message_buffer (self w1) = _message_buffer (self w) /\
    exists t, trace w1 = trace w ++ t /\ pulls_work t = false.
Proof.
  intros Hfault Hprobe Hor.
  unfold _open, _create_handler, client_ready, call, bind, get, modify,
    emit, ret, raise.
  rewrite Hfault, Hprobe.
  destruct (running (self w)) eqn:Hrun; simpl.
  - destruct Hor as [H|H]; [discriminate|].
    rewrite H; simpl; rewrite H.
    eexists; split; [reflexivity|]; simpl.
    repeat split; auto. exists [ClientReady]; auto.
  - destruct (truthy_handler (_handler (self w))); simpl;
      (eexists; split; [reflexivity|]; simpl;
       repeat split; auto;
       rewrite <- ?app_assoc; eexists; split; [reflexivity|reflexivity]).
Qed.

(** X8. While the receive client is not ready, [receive] does not pull.
    When the attempt of a pass opens without failure and [client_ready()]
    answers [False] (the consumer was not running, or not ready yet), the
    pass calls no [do_work], leaves the buffer as it is and leaves the loop
    by [break]: it is the last pass, its state is the one in which the
    flush test is made, [running] is set and [handler_ready] is not. *)
Theorem client_not_ready_breaks_without_pull max_batch_size now env
    (w : World) pass :
  let p := pull max_batch_size now env w in
  In pass (passes p) ->
  open_fault (env (p_index pass)) = None ->
  ready_probe (env (p_index pass)) = Ok false ->
  running (self (p_before pass)) = false \/
  handler_ready (self (p_before pass)) = false ->
  exit p = Completed /\
  (exists earlier, passes p = earlier ++ [pass]) /\
  running (self (world p)) = true /\
  handler_ready (self (world p)) = false /\
  _message_buffer (self (world p)) = _message_buffer (self (p_before pass))
  /\
  exists t, trace (world p) = trace (p_before pass) ++ t /\
            pulls_work t = false.
Proof.
  intros p Hin Hfault Hprobe Hor.
  destruct (open_not_ready (env (p_index pass)) (p_before pass) Hfault
              Hprobe Hor) as (w1 & Hopen & Hrun & Hready & Hbuf & Ht).
  assert (Hbody : loop_body (config_max_retries (self w)) (p_retried pass)
                    (env (p_index pass)) (p_before pass)
                  = (w1, (Break, p_retried pass))).
  { unfold loop_body, try_body, bind; rewrite Hopen; reflexivity. }
  destruct (pass_that_ends_pull max_batch_size now env w pass Hin Hbody
              eq_refl) as (Hx & Hw & _ & Hlast); fold p in Hx, Hw, Hlast.
  rewrite Hw; auto 10.
Qed.

Lemma message_received_spec m (w : World) :
  _message_received m w =
  ({| self := set_message_buffer (_message_buffer (self w) ++ [m]) (self w);
      trace := trace w ++ [MessageReceived m] |}, Ok tt).
Proof. reflexivity. Qed.

Lemma deliver_arrivals_spec ms : forall (w : World),
  snd (deliver_arrivals ms w) = Ok tt /\
  trace (fst (deliver_arrivals ms w)) = trace w ++ map MessageReceived ms /\
  _message_buffer (self (fst (deliver_arrivals ms w)))
  = _message_buffer (self w) ++ ms.
Proof.
  induction ms as [|m ms IH]; intro w.
  - simpl; rewrite !app_nil_r; auto.
  - simpl deliver_arrivals; unfold bind.
    rewrite message_received_spec.
    destruct (IH {| self := set_message_buffer (_message_buffer (self w)
                                                  ++ [m]) (self w);
                    trace := trace w ++ [MessageReceived m] |})
      as (H1 & H2 & H3).
    rewrite H1, H2, H3; simpl; rewrite <- !app_assoc; auto.
Qed.

(** On a consumer that is running and ready, [_open] does nothing. *)
Lemma open_when_ready s (w : World) :
  running (self w) = true ->
  handler_ready (self w) = true ->
  _open s w = (w, Ok true).
Proof.
  intros Hrun Hready; unfold _open, bind, get, ret.
  rewrite Hrun; simpl; rewrite Hready; simpl; rewrite Hready.
  reflexivity.
Qed.

(** X9. The pull of a consumer that is running and ready, when [do_work]
    returns: one attempt, no retry; the only calls are [do_work] with the
    prefetch as its batch and the [_message_received] of each message it
    hands over, in order; the buffer grows by these messages at its tail,
    and the flush test follows. *)
Theorem steady_pull max_batch_size now env (w : World) :
  let p := pull max_batch_size now env w in
  running (self w) = true ->
  handler_ready (self w) = true ->
  len w < max_batch_size ->
  0 <= config_max_retries (self w) ->
  work_fault (env 0%nat) = None ->
  exit p = Completed /\
  length (passes p) = 1%nat /\
  retried p = 0 /\
  trace (world p)
  = trace w ++ DoWork (_prefetch (self w))
               :: map MessageReceived (arrivals (env 0%nat)) /\
  _message_buffer (self (world p))
  = _message_buffer (self w) ++ arrivals (env 0%nat).
Proof.
  intros p Hrun Hready Hlen Hbudget Hwork.
  destruct (pull_cases max_batch_size now env w) as [[_ Hpull]|[Hge _]];
    [fold p in Hpull | lia].
  set (w0 := {| self := self (anchored now w);
                trace := trace w ++ [DoWork (_prefetch (self w))] |}).
  destruct (deliver_arrivals_spec (arrivals (env 0%nat)) w0)
    as (Hok & Htrace & Hbuf).
  assert (Htry : try_body (env 0%nat) (anchored now w)
                 = (fst (deliver_arrivals (arrivals (env 0%nat)) w0),
                    Ok tt)).
  { unfold try_body, bind at 1.
    rewrite (open_when_ready (env 0%nat) (anchored now w) Hrun Hready).
    unfold do_work, bind, get, emit.
    change {| self := self (anchored now w);
              trace := trace (anchored now w)
                       ++ [DoWork (_prefetch (self (anchored now w)))] |}
      with w0.
    destruct (deliver_arrivals (arrivals (env 0%nat)) w0) as [w1 [[]|e]];
      simpl in *; [|discriminate].
    rewrite Hwork; reflexivity. }
  assert (Hbody : loop_body (config_max_retries (self w)) 0 (env 0%nat)
                    (anchored now w)
                  = (fst (deliver_arrivals (arrivals (env 0%nat)) w0),
                     (Break, 0)))
    by (unfold loop_body; rewrite Htry; reflexivity).
  inversion Hpull; subst; try lia;
    match goal with
    | H : loop_body _ _ _ _ = _ |- _ =>
        rewrite Hbody in H; inversion H; subst
    end.
  rewrite Htrace, Hbuf; simpl; rewrite <- app_assoc; auto.
Qed.

(** ** The position *)

Lemma loop_body_offset max_retries r s (w : World) :
  _offset (self (fst (loop_body max_retries r s w))) = _offset (self w) \/
  exists ev,
    _last_received_event (self w) = Some ev /\
    _offset (self (fst (loop_body max_retries r s w))) = offset ev.
Proof.
  unfold loop_body, except_clause.
  pose proof (keeps_try_body s untouched_offset w) as Hoff.
  pose proof (keeps_try_body s untouched_last w) as Hlast.
  destruct (try_body s w) as [w1 [[]|e]]; simpl in *; [auto|].
  destruct (is_import_error e); [auto|].
  destruct (check_link_stolen e); [auto|].
  destruct (negb (running (self w1))); [auto|].
  match goal with
  | |- context [_handle_exception e ?w2] =>
      pose proof (keeps_handle_exception e untouched_offset w2) as Hh;
      pose proof (handle_exception_returns e w2) as Hr;
      destruct (_handle_exception e w2) as [w3 [x|x]]
  end; simpl in *; [|discriminate].
  assert (H : _offset (self w3) = _offset (self w) \/
              exists ev, _last_received_event (self w) = Some ev /\
                         _offset (self w3) = offset ev).
  { rewrite Hh, <- Hlast.
    destruct (_last_received_event (self w1)); simpl; eauto. }
  destruct (r + 1 >? max_retries); exact H.
Qed.

Lemma run_offset max_retries env k r (w : World) ps x wf rf :
  run max_retries env k r w ps x wf rf ->
  _offset (self wf) = _offset (self w) \/
  exists ev,
    _last_received_event (self w) = Some ev /\
    _offset (self wf) = offset ev.
Proof.
  induction 1 as [k r w Hr | k r w w' r' Hr Hb | k r w w' r' Hr Hb
                 | k r w w' r' e Hr Hb
                 | k r w w' r' ps x wf rf Hr Hb Hrun IH];
    auto;
    pose proof (loop_body_offset max_retries r (env k) w) as Hstep;
    rewrite Hb in Hstep; simpl in Hstep; auto.
  pose proof (after_pull_loop_body max_retries r (env k) w) as Hafter.
  rewrite Hb in Hafter; destruct Hafter as (_ & Hl & _); simpl in Hl.
  destruct IH as [IH|(ev & Hev & IH)].
  - rewrite IH; exact Hstep.
  - right; exists ev; rewrite <- Hl; auto.
Qed.

(** A field that no assignment of [receive] touches keeps its value. *)
Lemma loop_body_keeps {X} (g : Consumer -> X) max_retries r s (w : World) :
  untouched_by_pull g ->
  (forall p c, g (set_offset p c) = g c) ->
  g (self (fst (loop_body max_retries r s w))) = g (self w).
Proof.
  intros Hg Hoff; unfold loop_body, except_clause.
  pose proof (keeps_try_body s Hg w) as Ht.
  destruct (try_body s w) as [w1 [[]|e]]; simpl in *; [exact Ht|].
  destruct (is_import_error e); [exact Ht|].
  destruct (check_link_stolen e); [exact Ht|].
  destruct (negb (running (self w1))); [exact Ht|].
  match goal with
  | |- context [_handle_exception e ?w2] =>
      pose proof (keeps_handle_exception e Hg w2) as Hh;
      destruct (_handle_exception e w2) as [w3 [x|x]]
  end; simpl in Hh;
    [destruct (r + 1 >? max_retries)|]; simpl; rewrite Hh;
    destruct (_last_received_event (self w1)); simpl;
    rewrite ?Hoff; exact Ht.
Qed.

Lemma run_keeps {X} (g : Consumer -> X) max_retries env k r (w : World) ps x
    wf rf :
  untouched_by_pull g ->
  (forall p c, g (set_offset p c) = g c) ->
  run max_retries env k r w ps x wf rf ->
  g (self wf) = g (self w).
Proof.
  intros Hg Hoff; induction 1 as [k r w Hr | k r w w' r' Hr Hb
                                 | k r w w' r' Hr Hb | k r w w' r' e Hr Hb
                                 | k r w w' r' ps x wf rf Hr Hb Hrun IH];
    try reflexivity;
    pose proof (loop_body_keeps max_retries r (env k) w Hg Hoff) as Hstep;
    rewrite Hb in Hstep; simpl in Hstep; try exact Hstep.
  rewrite IH; exact Hstep.
Qed.

Lemma receive_keeps {X} (g : Consumer -> X) batch max_batch_size
    max_wait_time clock env (w : World) :
  untouched_by_pull g ->
  (forall p c, g (set_offset p c) = g c) ->
  (forall t c, g (set_receive_start_time t c) = g c) ->
  (forall e c, g (set_last_received_event e c) = g c) ->
  g (self (final (receive batch max_batch_size max_wait_time clock env w)))
  = g (self w).
Proof.
  intros Hg Hoff Hstart Hlast.
  assert (Hpull : g (self (world (pull max_batch_size (fst clock) env w)))
                  = g (self w)).
  { destruct (pull_cases max_batch_size (fst clock) env w)
      as [[_ Hrun]|[_ Hp]].
    - rewrite (run_keeps Hg Hoff Hrun); apply Hstart.
    - rewrite Hp; apply Hstart. }
  destruct (receive_cases batch max_batch_size max_wait_time clock env w)
    as (_ & [(e & _ & _ & Hfin) | [(_ & _ & Hfin) | [(_ & _ & _ & Hfin)
       | (_ & _ & _ & taken & rest & d & _ & _ & Hfin)]]]);
    rewrite Hfin; try exact Hpull.
  simpl; rewrite Hstart.
  destruct Hg as (_ & _ & _ & Hbuf).
  destruct taken; simpl; rewrite ?Hlast, ?Hbuf; exact Hpull.
Qed.

(** ** Where the recreated receive client starts *)





(** X10. One [receive] call moves the position in one way only: it leaves
    [_offset] as it is, or sets it to the offset of the event that was the
    last received one when the call began.  The flag [_offset_inclusive] is
    never changed. *)
Theorem position_only_rewinds batch max_batch_size max_wait_time clock env
    (w : World) :
  let r := receive batch max_batch_size max_wait_time clock env w in
  (_offset (self (final r)) = _offset (self w) \/
   exists ev,
     _last_received_event (self w) = Some ev /\
     _offset (self (final r)) = offset ev) /\
  _offset_inclusive (self (final r)) = _offset_inclusive (self w).
Proof.
  intro r; split.
  - assert (Hpull : _offset (self (world (pull max_batch_size (fst clock)
                                            env w))) = _offset (self w) \/
                    exists ev,
                      _last_received_event (self w) = Some ev /\
                      _offset (self (world (pull max_batch_size (fst clock)
                                              env w))) = offset ev).
    { destruct (pull_cases max_batch_size (fst clock) env w)
        as [[_ Hrun]|[_ Hp]].
      - exact (run_offset Hrun).
      - rewrite Hp; simpl; auto. }
    destruct (receive_cases batch max_batch_size max_wait_time clock env w)
      as (_ & [(e & _ & _ & Hfin) | [(_ & _ & Hfin) | [(_ & _ & _ & Hfin)
         | (_ & _ & _ & taken & rest & d & _ & _ & Hfin)]]]);
      fold r in Hfin; rewrite Hfin; try exact Hpull.
    destruct taken; exact Hpull.
  - apply (receive_keeps (g := _offset_inclusive));
      try (intros; reflexivity).
    repeat split.
Qed.

(** ** The life of the receive client *)

Lemma aside_refl (w : World) : aside w w.
Proof.
  repeat split; exists []; rewrite app_nil_r; auto.
Qed.

Lemma aside_trans (w1 w2 w3 : World) :
  aside w1 w2 -> aside w2 w3 -> aside w1 w3.
Proof.
  intros (Hh & Hs & t & Ht & Hn) (Hh' & Hs' & t' & Ht' & Hn').
  repeat split; try congruence.
  exists (t ++ t'); split.
  - rewrite Ht', Ht, app_assoc; reflexivity.
  - rewrite forallb_app, Hn, Hn'; reflexivity.
Qed.

Lemma aside_ret {A} (a : A) : asideM (ret a).
Proof. intro w; apply aside_refl. Qed.

Lemma aside_raise {A} (e : Exn) : asideM (raise (A := A) e).
Proof. intro w; apply aside_refl. Qed.

Lemma aside_get : asideM get.
Proof. intro w; apply aside_refl. Qed.

Lemma aside_get_world : asideM get_world.
Proof. intro w; apply aside_refl. Qed.

Lemma aside_emit (e : Effect) : neutral e = true -> asideM (emit e).
Proof.
  intros He w; repeat split; exists [e]; simpl; rewrite He; auto.
Qed.

Lemma aside_modify (f : Consumer -> Consumer) :
  (forall c, _handler (f c) = _handler c) ->
  (forall c, settings (f c) = settings c) ->
  asideM (modify f).
Proof.
  intros Hh Hs w; repeat split; simpl; auto.
  exists []; rewrite app_nil_r; auto.
Qed.

Lemma aside_bind {A B} (m : M A) (k : A -> M B) :
  asideM m -> (forall a, asideM (k a)) -> asideM (bind m k).
Proof.
  intros Hm Hk w; unfold bind.
  specialize (Hm w); destruct (m w) as [w' [a|e]]; simpl in *; [|exact Hm].
  exact (aside_trans Hm (Hk a w')).
Qed.

Ltac step_aside :=
  repeat first
    [ apply aside_ret | apply aside_raise | apply aside_get
    | apply aside_get_world
    | apply aside_emit; reflexivity
    | apply aside_modify; intro; reflexivity
    | apply aside_bind; [|intro]
    | match goal with
      | |- asideM (if ?b then _ else _) => destruct b
      | |- asideM (match ?x with _ => _ end) => destruct x
      end ].

Lemma aside_message_received m : asideM (_message_received m).
Proof. unfold _message_received; step_aside. Qed.

Lemma aside_deliver_arrivals ms : asideM (deliver_arrivals ms).
Proof.
  induction ms; simpl; [apply aside_ret|].
  apply aside_bind; [apply aside_message_received | intro; assumption].
Qed.

Lemma aside_do_work s : asideM (do_work s).
Proof.
  unfold do_work.
  apply aside_bind; [apply aside_get|intro].
  apply aside_bind; [apply aside_emit; reflexivity|intro].
  apply aside_bind; [apply aside_deliver_arrivals|intro].
  destruct (work_fault s); [apply aside_raise | apply aside_ret].
Qed.

Lemma aside_next_message : asideM _next_message_in_buffer.
Proof. unfold _next_message_in_buffer; step_aside. Qed.

Lemma aside_collect n : forall events, asideM (collect n events).
Proof.
  induction n; intro events; simpl; [apply aside_ret|].
  apply aside_bind; [apply aside_next_message | intro; apply IHn].
Qed.

Lemma aside_flush batch max_batch_size : asideM (flush batch max_batch_size).
Proof.
  unfold flush, _on_event_received.
  apply aside_bind; [apply aside_get_world|intro w].
  apply aside_bind; [|intro; apply aside_modify; intro; reflexivity].
  destruct batch; [|destruct (nonempty w)].
  - apply aside_bind; [apply aside_collect|intro].
    apply aside_emit; reflexivity.
  - apply aside_bind; [apply aside_next_message|intro].
    apply aside_emit; reflexivity.
  - apply aside_emit; reflexivity.
Qed.

Lemma lifecycle_snoc (t : list Effect) e :
  lifecycle (t ++ [e]) = link_step (lifecycle t) e.
Proof. unfold lifecycle; rewrite fold_left_app; reflexivity. Qed.

Lemma lifecycle_neutral (t t' : list Effect) :
  forallb neutral t' = true -> lifecycle (t ++ t') = lifecycle t.
Proof.
  induction t' as [|e t' IH] using rev_ind; intro H.
  - rewrite app_nil_r; reflexivity.
  - rewrite forallb_app in H; apply andb_true_iff in H; destruct H as [H He].
    simpl in He; rewrite andb_true_r in He.
    rewrite app_assoc, lifecycle_snoc, (IH H).
    destruct e; try discriminate; reflexivity.
Qed.

Lemma created_neutral (t : list Effect) :
  forallb neutral t = true -> created t = [].
Proof.
  induction t as [|e t IH]; [reflexivity|].
  simpl; intro H; apply andb_true_iff in H; destruct H as [He H].
  destruct e; try discriminate; simpl; auto.
Qed.

(** A property of the state that holds of a new consumer and that survives
    [_open], the closing of the handler at hand and everything that leaves
    the receive client aside holds in every state a consumer reaches. *)
Section Invariant.

Variable P : World -> Prop.

Hypothesis P_init :
  forall event_position inclusive prefetch track max_retries,
    P (__init__ event_position inclusive prefetch track max_retries).
Hypothesis P_aside : forall w w', aside w w' -> P w -> P w'.
Hypothesis P_open : forall s w, P w -> P (fst (_open s w)).
Hypothesis P_shut : forall w,
    truthy_handler (_handler (self w)) = true ->
    P w -> P {| self := self w; trace := trace w ++ [HandlerClose] |}.

Lemma invariant_try_body s w : P w -> P (fst (try_body s w)).
Proof.
  intro H; unfold try_body, bind.
  pose proof (P_open s H) as Ho.
  destruct (_open s w) as [w1 [[|]|e]]; simpl in *; try exact Ho.
  exact (P_aside (aside_do_work s w1) Ho).
Qed.

Lemma invariant_shut f w :
  (forall c, _handler (f c) = _handler c) ->
  (forall c, settings (f c) = settings c) ->
  P w ->
  P (fst (bind (if truthy_handler (_handler (self w))
                then emit HandlerClose else ret tt)
            (fun _ => modify f) w)).
Proof.
  intros Hh Hs H; unfold bind, emit, ret, modify.
  destruct (truthy_handler (_handler (self w))) eqn:Hsome; simpl.
  - apply (P_aside (w := {| self := self w;
                            trace := trace w ++ [HandlerClose] |}));
      [|apply P_shut; assumption].
    repeat split; simpl; auto. exists []; rewrite app_nil_r; auto.
  - apply (P_aside (w := w)); [|exact H].
    repeat split; simpl; auto. exists []; rewrite app_nil_r; auto.
Qed.

Lemma invariant_handle_exception e w :
  P w -> P (fst (_handle_exception e w)).
Proof.
  intro H; unfold _handle_exception, bind at 1 2, get.
  destruct (handling_closes e); [|exact H].
  pose proof (invariant_shut (set_running false)
                (fun _ => eq_refl) (fun _ => eq_refl) H) as Hs.
  destruct (bind _ _ w) as [w1 [[]|x]]; exact Hs.
Qed.

Lemma invariant_loop_body max_retries r s w :
  P w -> P (fst (loop_body max_retries r s w)).
Proof.
  intro H; unfold loop_body, except_clause.
  pose proof (invariant_try_body s H) as Ht.
  destruct (try_body s w) as [w1 [[]|e]]; simpl in *; [exact Ht|].
  destruct (is_import_error e); [exact Ht|].
  destruct (check_link_stolen e); [exact Ht|].
  destruct (negb (running (self w1))); [exact Ht|].
  match goal with
  | |- context [_handle_exception e ?w2] =>
      assert (H2 : P w2)
        by (destruct (_last_received_event (self w1)); [|exact Ht];
            refine (P_aside _ Ht); repeat split;
            exists []; simpl; rewrite app_nil_r; auto);
      pose proof (invariant_handle_exception e H2) as Hh;
      destruct (_handle_exception e w2) as [w3 [x|x]]
  end; simpl in *; [destruct (r + 1 >? max_retries)|]; exact Hh.
Qed.

Lemma invariant_run max_retries env k r w ps x wf rf :
  run max_retries env k r w ps x wf rf -> P w -> P wf.
Proof.
  induction 1 as [k r w Hr | k r w w' r' Hr Hb | k r w w' r' Hr Hb
                 | k r w w' r' e Hr Hb
                 | k r w w' r' ps x wf rf Hr Hb Hrun IH];
    intro H; auto;
    pose proof (invariant_loop_body max_retries r (env k) H) as Hstep;
    rewrite Hb in Hstep; simpl in Hstep; auto.
Qed.

Lemma invariant_receive batch max_batch_size max_wait_time clock env w :
  P w ->
  P (final (receive batch max_batch_size max_wait_time clock env w)).
Proof.
  intro H.
  assert (Ha : P (anchored (fst clock) w)).
  { refine (P_aside _ H); repeat split.
    exists []; simpl; rewrite app_nil_r; auto. }
  assert (Hpull : P (world (pull max_batch_size (fst clock) env w))).
  { destruct (pull_cases max_batch_size (fst clock) env w)
      as [[_ Hrun]|[_ Hp]].
    - exact (invariant_run Hrun Ha).
    - rewrite Hp; exact Ha. }
  unfold receive.
  destruct (exit (pull max_batch_size (fst clock) env w)); try exact Hpull.
  destruct (flush_condition _ _ _ _ _); [|exact Hpull].
  pose proof (aside_flush batch max_batch_size
                (world (pull max_batch_size (fst clock) env w))) as Hf.
  destruct (flush batch max_batch_size _) as [w' [[]|e]]; simpl in *;
    exact (P_aside Hf Hpull).
Qed.

Lemma invariant_reachable w : reachable w -> P w.
Proof.
  induction 1 as [| w batch mbs mwt clock env _ IH | w m _ IH | w _ IH].
  - apply P_init.
  - apply invariant_receive; exact IH.
  - exact (P_aside (aside_message_received m w) IH).
  - unfold close, bind, get, emit, ret, modify.
    destruct (truthy_handler (_handler (self w))) eqn:Hsome; simpl.
    + refine (P_aside _ (P_shut Hsome IH)); repeat split.
      exists []; simpl; rewrite app_nil_r; auto.
    + refine (P_aside _ IH); repeat split.
      exists []; simpl; rewrite app_nil_r; auto.
Qed.

End Invariant.

(** No client was constructed over an open one so far, and an open client
    is the one the consumer holds. *)
Lemma link_invariant (w : World) :
  reachable w ->
  snd (lifecycle (trace w)) = true /\
  (is_opened (fst (lifecycle (trace w))) = true ->
   truthy_handler (_handler (self w)) = true).
Proof.
  intro Hreach.
  refine (invariant_reachable
            (fun w =>
               snd (lifecycle (trace w)) = true /\
               (is_opened (fst (lifecycle (trace w))) = true ->
                truthy_handler (_handler (self w)) = true))
            _ _ _ _ Hreach); clear w Hreach.
  - intros; split; [reflexivity | discriminate].
  - intros w0 w' (Hh & _ & t & Ht & Hn) [Hok Hopen].
    rewrite Ht, (lifecycle_neutral _ _ Hn), Hh; auto.
  - intros s w0 [Hok Hopen].
    unfold _open, _create_handler, client_ready, call, bind, get, modify,
      emit, ret, raise.
    destruct (lifecycle (trace w0)) as [l ok] eqn:Hl; simpl in Hok, Hopen.
    subst ok.
    destruct (running (self w0)); simpl.
    + destruct (handler_ready (self w0)); simpl;
        [rewrite Hl; auto|].
      destruct (ready_probe s) as [[|]|e]; simpl;
        rewrite ?lifecycle_snoc, Hl; simpl; auto.
    + destruct (truthy_handler (_handler (self w0))) eqn:Hsome;
        destruct (open_fault s) as [[[| | | |] e]|];
        destruct (ready_probe s) as [[|]|e']; simpl;
        rewrite ?app_nil_r, ?lifecycle_snoc, ?Hl; simpl;
        rewrite ?Hsome; auto;
        destruct l; simpl in *; auto;
        try (split; [reflexivity | discriminate]);
        try (discriminate (Hopen eq_refl)).
  - intros w0 Hsome [Hok Hopen]; simpl.
    rewrite lifecycle_snoc; simpl; split; [exact Hok | discriminate].
Qed.

Lemma lifecycle_prefix (t t' : list Effect) :
  snd (lifecycle (t ++ t')) = true -> snd (lifecycle t) = true.
Proof.
  induction t' as [|e t' IH] using rev_ind; intro H.
  - rewrite app_nil_r in H; exact H.
  - rewrite app_assoc, lifecycle_snoc in H; apply IH.
    destruct e; simpl in H; auto.
    apply andb_true_iff in H; tauto.
Qed.

(** X11. At most one receive client is open at any time.  In every state
    a consumer can reach, each receive client was constructed when no
    client was open: none had been opened yet, or the last one opened had
    been closed since. *)
Theorem one_client_at_a_time (w : World) t1 h t2 :
  reachable w ->
  trace w = t1 ++ CreateReceiveClient h :: t2 ->
  fst (lifecycle t1) <> Opened.
Proof.
  intros Hreach Heq Hopened.
  destruct (link_invariant Hreach) as [Hok _].
  rewrite Heq in Hok.
  change (t1 ++ CreateReceiveClient h :: t2)
    with (t1 ++ [CreateReceiveClient h] ++ t2) in Hok.
  rewrite app_assoc in Hok; apply lifecycle_prefix in Hok.
  rewrite lifecycle_snoc in Hok; simpl in Hok.
  rewrite Hopened, andb_false_r in Hok; discriminate.
Qed.

(** X12. The settings a consumer was created with never change, and every
    receive client is constructed from them: in every state a consumer can
    reach, each client constructed so far, on the first open or on a reopen
    after a failure, has the inclusive flag, the link credit and the
    runtime-metric capability that the consumer holds now. *)
Theorem clients_keep_settings (w : World) :
  reachable w ->
  Forall (fun h => (h_inclusive h, h_link_credit h, h_runtime_metric h)
                   = settings (self w))
    (created (trace w)).
Proof.
  intro Hreach.
  refine (invariant_reachable
            (fun w =>
               Forall (fun h => (h_inclusive h, h_link_credit h,
                                 h_runtime_metric h)
                                = settings (self w))
                 (created (trace w)))
            _ _ _ _ Hreach); clear w Hreach.
  - intros; constructor.
  - intros w0 w' (_ & Hs & t & Ht & Hn) H.
    rewrite Ht, created_app, (created_neutral _ Hn), app_nil_r, Hs.
    exact H.
  - intros s w0 H.
    unfold _open, _create_handler, client_ready, call, bind, get, modify,
      emit, ret, raise.
    destruct (running (self w0)); simpl.
    + destruct (handler_ready (self w0)); simpl; [exact H|].
      destruct (ready_probe s) as [[|]|e]; simpl;
        rewrite ?created_app, ?app_nil_r; simpl; rewrite ?app_nil_r;
        exact H.
    + destruct (truthy_handler (_handler (self w0)));
        destruct (open_fault s) as [[[| | | |] e]|];
        destruct (ready_probe s) as [[|]|e']; simpl;
        rewrite ?created_app; simpl; rewrite ?app_nil_r;
        try exact H;
        apply Forall_app; (split; [exact H|]);
        first [ constructor; [reflexivity | constructor] | constructor ].
  - intros w0 _ H; simpl.
    rewrite created_app, app_nil_r; exact H.
Qed.

(** ** What [receive] raises *)

Lemma loop_body_raises max_retries r s (w w' : World) e r' :
  loop_body max_retries r s w = (w', (Raise e, r')) ->
  exists w1 e0,
    try_body s w = (w1, Err e0) /\
    ((is_import_error e0 = true /\ e = e0 /\ r' = r) \/
     (is_import_error e0 = false /\ check_link_stolen e0 = Some e /\ r' = r)
     \/
     (retryable e0 /\ running (self w1) = true /\ e = handled e0 /\
      r' = r + 1 /\ max_retries < r')).
Proof.
  unfold loop_body, except_clause, retryable.
  destruct (try_body s w) as [w1 [[]|e0]]; [discriminate|].
  intro H; exists w1, e0; split; [reflexivity|].
  destruct (is_import_error e0) eqn:Himp;
    [inversion H; subst; auto|].
  destruct (check_link_stolen e0) eqn:Hstolen;
    [inversion H; subst; auto|].
  destruct (running (self w1)) eqn:Hrun; simpl in H; [|discriminate].
  match type of H with
  | context [_handle_exception e0 ?w2] =>
      pose proof (handle_exception_returns e0 w2) as Hr;
      destruct (_handle_exception e0 w2) as [w3 [x|x]]
  end; simpl in Hr; [|discriminate].
  inversion Hr; subst x.
  destruct (r + 1 >? max_retries) eqn:Hgt; [|discriminate].
  inversion H; subst.
  rewrite Z.gtb_ltb, Z.ltb_lt in Hgt; auto 10.
Qed.

Lemma run_propagates max_retries env k r (w : World) ps x wf rf e :
  run max_retries env k r w ps x wf rf ->
  x = Propagated e ->
  exists last,
    last_of ps = Some last /\
    loop_body max_retries (p_retried last) (env (p_index last))
      (p_before last) = (wf, (Raise e, rf)).
Proof.
  induction 1 as [k r w Hr | k r w w' r' Hr Hb | k r w w' r' Hr Hb
                 | k r w w' r' e' Hr Hb
                 | k r w w' r' ps x wf rf Hr Hb Hrun IH];
    intro Hx; try discriminate.
  - inversion Hx; subst.
    exists {| p_index := k; p_retried := r; p_before := w |}; auto.
  - destruct (IH Hx) as (last & Hlast & Hbody).
    exists last; split; [|exact Hbody].
    destruct ps; [discriminate | exact Hlast].
Qed.

(** X14. What [receive] raises comes from its last attempt, never from the
    flush ([popleft] is never called on an empty buffer).  When [receive]
    raises [e], the [try] block of the last pass raised some [e0], and
    either [e0] is an [ImportError] and [e] is [e0] itself, or the
    transport found the link stolen and [e] is what it raised, or [e0] was
    retryable with [running] set, [e] is what [_handle_exception] returned
    for it, and the retries are used up: [retried_times] has reached
    [max_retries + 1]. *)
Theorem raised_error_comes_from_last_attempt batch max_batch_size
    max_wait_time clock env (w : World) e :
  let r := receive batch max_batch_size max_wait_time clock env w in
  outcome r = Raised e ->
  exit (pulled r) = Propagated e /\
  exists last w1 e0,
    last_of (passes (pulled r)) = Some last /\
    try_body (env (p_index last)) (p_before last) = (w1, Err e0) /\
    ((is_import_error e0 = true /\ e = e0) \/
     (is_import_error e0 = false /\ check_link_stolen e0 = Some e) \/
     (retryable e0 /\ running (self w1) = true /\ e = handled e0 /\
      retried (pulled r) = config_max_retries (self w) + 1)).
Proof.
  intros r Hraised.
  destruct (receive_cases batch max_batch_size max_wait_time clock env w)
    as (Hp & Hcases); fold r in Hp, Hcases.
  assert (Hx : exit (pull max_batch_size (fst clock) env w) = Propagated e).
  { destruct Hcases
      as [(e' & Hx & Hout & _) | [(_ & Hout & _) | [(_ & _ & Hout & _)
         | (_ & _ & Hout & _)]]];
      rewrite Hout in Hraised; inversion Hraised; subst; exact Hx. }
  rewrite Hp; split; [exact Hx|].
  destruct (pull_cases max_batch_size (fst clock) env w)
    as [[_ Hrun]|[_ Hnil]]; [|rewrite Hnil in Hx; discriminate].
  destruct (run_propagates Hrun Hx) as (last & Hlast & Hbody).
  destruct (loop_body_raises _ _ _ _ Hbody) as (w1 & e0 & Htry & Hkind).
  exists last, w1, e0; split; [exact Hlast|]. split; [exact Htry|].
  destruct Hkind as [(Hi & He & _) | [(Hi & Hs & _)
                    | (Hr & Hrunning & He & Hr' & Hgt)]]; auto.
  right; right.
  split; [exact Hr|]. split; [exact Hrunning|]. split; [exact He|].
  assert (Hle : p_retried last <= config_max_retries (self w)).
  { clear - Hrun Hlast.
    remember (passes (pull max_batch_size (fst clock) env w)) as ps.
    clear Heqps.
    induction Hrun; simpl in Hlast; try discriminate;
      try (inversion Hlast; subst; simpl; assumption).
    destruct ps; [inversion Hlast; subst; simpl; assumption|].
    apply IHHrun; exact Hlast. }
  lia.
Qed.

(** ** The partition of a source *)

Lemma split_not_nil sep s : split sep s <> [].
Proof.
  destruct s as [|c s]; simpl; [discriminate|].
  destruct (Ascii.eqb c sep); [discriminate|].
  destruct (split sep s); discriminate.
Qed.

(** The last segment, and what comes before it. *)
Lemma split_last sep s :
  exists segments p prefix,
    split sep s = segments ++ [p] /\
    ~ In sep p /\
    s = prefix ++ p /\
    (segments = [] -> prefix = []) /\
    (prefix = [] \/ exists q, prefix = q ++ [sep]).
Proof.
  induction s as [|c s IH].
  - exists [], [], []; simpl; repeat split; auto.
  - destruct IH as (segments & p & prefix & Hsplit & Hp & Hs & Hnil & Hend).
    simpl; destruct (Ascii.eqb_spec c sep) as [->|Hne].
    + exists ([] :: segments), p, (sep :: prefix).
      rewrite Hsplit, Hs; repeat split; auto; [discriminate|].
      right; destruct Hend as [->|[q ->]];
        [exists [] | exists (sep :: q)]; reflexivity.
    + rewrite Hsplit.
      destruct segments as [|segment segments]; simpl.
      * exists [], (c :: p), []; rewrite Hs, (Hnil eq_refl).
        repeat split; auto.
        intros [H|H]; [exact (Hne H) | exact (Hp H)].
      * exists ((c :: segment) :: segments), p, (c :: prefix).
        rewrite Hs; repeat split; auto; [discriminate|].
        right; destruct Hend as [->|[q ->]].
        -- exfalso.
           assert (Hlen : length (split sep s) = 1%nat).
           { clear - Hs Hp.
             simpl in Hs; subst s.
             induction p as [|a p IHp]; [reflexivity|].
             simpl; destruct (Ascii.eqb_spec a sep) as [->|_];
               [exfalso; apply Hp; left; reflexivity|].
             assert (Hp' : ~ In sep p) by (intro; apply Hp; right; auto).
             specialize (IHp Hp').
             destruct (split sep p) as [|x [|y l]]; try discriminate.
             reflexivity. }
           rewrite Hsplit in Hlen; simpl in Hlen.
           rewrite length_app in Hlen; simpl in Hlen; lia.
        -- exists (c :: q); reflexivity.
Qed.

Lemma join_split sep s : join sep (split sep s) = s.
Proof.
  induction s as [|c s IH]; [reflexivity|].
  simpl; pose proof (split_not_nil sep s) as Hne.
  destruct (Ascii.eqb_spec c sep) as [->|_].
  - destruct (split sep s) as [|segment segments]; [contradiction|].
    simpl in *; rewrite IH; reflexivity.
  - destruct (split sep s) as [|segment segments]; [contradiction|].
    rewrite <- IH; destruct segments; reflexivity.
Qed.

(** X13. The partition of a consumer is the part of its source after the
    last slash.  [source.split("/")[-1]] never raises; the result holds no
    slash; the source is a prefix followed by it, where the prefix is empty
    or ends with a slash; it is the whole source when that holds no slash;
    and joining the segments with slashes gives the source back. *)
Theorem partition_is_last_segment source :
  exists p prefix,
    _partition source = Some p /\
    ~ In slash p /\
    source = prefix ++ p /\
    (prefix = [] \/ exists q, prefix = q ++ [slash]) /\
    (~ In slash source -> p = source) /\
    join slash (split slash source) = source.
Proof.
  destruct (split_last slash source)
    as (segments & p & prefix & Hsplit & Hp & Hs & _ & Hend).
  pose proof (join_split slash source) as Hjoin.
  exists p, prefix; unfold _partition.
  rewrite Hsplit, last_of_snoc.
  repeat split; auto; [|rewrite <- Hsplit; exact Hjoin].
  intro Hno; destruct Hend as [->|[q ->]]; [symmetry; exact Hs|].
  exfalso; apply Hno; rewrite Hs.
  apply in_or_app; left; apply in_or_app; right; left; reflexivity.
Qed.

End Properties.

(** * The claims on the concrete consumer *)

#[global] Existing Instance demo.

Ltac computed := vm_compute; reflexivity.

(** C1 on the consumer that received [1] and [2] and delivered [1]. *)
Lemma delivery_preserves_enqueue_order_witness :
  reachable (one_delivered 0) /\
  map (convert (T := demo)) (enqueued (trace (one_delivered 0)))
  = delivered (trace (one_delivered 0))
    ++ map convert (_message_buffer (self (one_delivered 0))).
Proof.
  assert (H : reachable (one_delivered 0))
    by (apply reach_receive, reach_init).
  split; [exact H | exact (delivery_preserves_enqueue_order H)].
Defined.

(** C2 with [max_retries = 2] and a [do_work] that always times out: three
    attempts, then the wrapped timeout. *)
Lemma retry_bound_witness :
  let r := receive false 300 None (20, 20) timing_out (fresh 2) in
  passes (pulled r) <> [] /\
  (forall pass, In pass (passes (pulled r)) -> fails_retryably timing_out pass)
  /\
  length (passes (pulled r)) = 3%nat /\
  outcome r = Raised (PyEventHubError PyTimeout) /\
  Z.of_nat (length (passes (pulled r)))
  = config_max_retries (self (fresh 2)) + 1 /\
  exists last w1 e,
    last_of (passes (pulled r)) = Some last /\
    try_body (timing_out (p_index last)) (p_before last) = (w1, Err e) /\
    outcome r = Raised (handled e).
Proof.
  intro r.
  assert (Hne : passes (pulled r) <> []) by (vm_compute; discriminate).
  assert (Hall : forall pass,
             In pass (passes (pulled r)) -> fails_retryably timing_out pass).
  { let l := eval vm_compute in (passes (pulled r)) in
    assert (Hl : passes (pulled r) = l) by computed.
    rewrite Hl; clear Hl.
    intros pass [<-|[<-|[<-|[]]]];
      (eexists; exists PyTimeout; split;
       [computed | split; [split|]; computed]). }
  split; [exact Hne|]. split; [exact Hall|].
  split; [computed|]. split; [computed|].
  exact (@retry_bound demo false 300 None (20, 20) timing_out (fresh 2)
           Hne Hall).
Defined.

(** C3 as stated fails.  First call: the consumer holds message [2], no
    [max_wait_time] is given, [do_work] times out and there is no retry
    budget: the flush condition holds of the state after the pull attempt,
    yet [receive] raises and the callback is not called.  Second call, on
    the consumer as the first left it ([running] cleared by the handling of
    the timeout): the connection cannot be obtained, [receive] returns from
    inside the loop, and again the callback is not called although the
    condition holds. *)
Lemma flush_skipped_when_pull_fails :
  let w := one_delivered 0 in
  let r := receive false 300 None (20, 20) timing_out w in
  let r' := receive false 300 None (30, 30) (fun _ => unreachable) (final r) in
  (outcome r = Raised (PyEventHubError PyTimeout) /\
   _message_buffer (self (world (pulled r))) = [2] /\
   flush_now 300 None 20 (world (pulled r)) /\
   deliveries (trace w) = [Single (Some 1)] /\
   deliveries (trace (final r)) = [Single (Some 1)]) /\
  (outcome r' = Returned /\
   exit (pulled r') = ExitByClose /\
   _message_buffer (self (world (pulled r'))) = [2] /\
   flush_now 300 None 30 (world (pulled r')) /\
   deliveries (trace (final r')) = [Single (Some 1)]).
Proof.
  intros w r r'.
  assert (Hb : _message_buffer (self (world (pulled r))) = [2]) by computed.
  assert (Hb' : _message_buffer (self (world (pulled r'))) = [2])
    by computed.
  split.
  - split; [computed|]. split; [exact Hb|].
    split; [|split; computed].
    right; left; split;
      [rewrite Hb; discriminate | intros (t & H & _); discriminate].
  - split; [computed|]. split; [computed|]. split; [exact Hb'|].
    split; [|computed].
    right; left; split;
      [rewrite Hb'; discriminate | intros (t & H & _); discriminate].
Qed.

(** C3, as amended, on a call whose pull succeeds. *)
Lemma flush_decision_witness :
  let r := receive false 1 None (10, 10) (fun _ => arriving [1; 2]) (fresh 0) in
  exit (pulled r) = Completed /\
  (flush_now 1 None (snd (10, 10)) (world (pulled r))
   <-> handler_invoked (fresh 0) (final r)) /\
  (~ flush_now 1 None (snd (10, 10)) (world (pulled r))
   -> outcome r = Returned /\ final r = world (pulled r)).
Proof.
  intro r.
  assert (Hexit : exit (pulled r) = Completed) by computed.
  split; [exact Hexit|].
  exact (@flush_decision demo false 1 None (10, 10)
           (fun _ => arriving [1; 2]) (fresh 0) Hexit).
Defined.



(** C5 with three retries left of four: the link is found stolen on the
    second attempt and [receive] raises at once. *)
Lemma link_stolen_is_raised_at_once_witness :
  let r := receive false 300 None (20, 20) stolen_on_retry (fresh 3) in
  let pass := second_pass 20 (failing [] PyTimeout) (fresh 3) in
  In pass (passes (pulled r)) /\
  config_max_retries (self (fresh 3)) = 3 /\
  outcome r = Raised (PyEventHubError PyLinkStolen) /\
  (exists earlier, passes (pulled r) = earlier ++ [pass]) /\
  retried (pulled r) = p_retried pass /\
  _offset (self (final r)) = _offset (self (p_before pass)).
Proof.
  intros r pass.
  assert (Hin : In pass (passes (pulled r)))
    by (vm_compute; right; left; reflexivity).
  assert (Htry : try_body (stolen_on_retry (p_index pass)) (p_before pass)
                 = (fst (try_body (stolen_on_retry (p_index pass))
                           (p_before pass)), Err PyLinkStolen))
    by computed.
  split; [exact Hin|]. split; [computed|].
  exact (@link_stolen_is_raised_at_once demo false 300 None (20, 20)
           stolen_on_retry (fresh 3) pass _ PyLinkStolen
           (PyEventHubError PyLinkStolen) Hin Htry eq_refl eq_refl).
Defined.

(** C7 on the consumer that holds message [2]: message [3] arrives, then
    [do_work] times out with no retry budget. *)
Lemma error_leaves_buffer_intact_witness :
  let w := one_delivered 0 in
  let r := receive true 300 (Some 5) (20, 40)
             (fun _ => failing [3] PyTimeout) w in
  outcome r = Raised (PyEventHubError PyTimeout) /\
  _message_buffer (self w) = [2] /\
  _message_buffer (self (final r)) = [2; 3] /\
  deliveries (trace (final r)) = deliveries (trace w) /\
  _last_received_event (self (final r)) = _last_received_event (self w) /\
  exists arrived,
    _message_buffer (self (final r)) = _message_buffer (self w) ++ arrived /\
    enqueued (trace (final r)) = enqueued (trace w) ++ arrived.
Proof.
  intros w r.
  assert (Hout : outcome r = Raised (PyEventHubError PyTimeout))
    by computed.
  split; [exact Hout|]. split; [computed|]. split; [computed|].
  exact (@error_leaves_buffer_intact demo true 300 (Some 5) (20, 40)
           (fun _ => failing [3] PyTimeout) w _ Hout).
Defined.

(** C8 with three retries left of four: the second attempt raises an
    [ImportError] and [receive] raises it at once. *)
Lemma import_error_is_raised_at_once_witness :
  let r := receive false 300 None (20, 20) import_error_on_retry (fresh 3) in
  let pass := second_pass 20 (failing [] PyTimeout) (fresh 3) in
  In pass (passes (pulled r)) /\
  config_max_retries (self (fresh 3)) = 3 /\
  outcome r = Raised PyImportError /\
  (exists earlier, passes (pulled r) = earlier ++ [pass]) /\
  retried (pulled r) = p_retried pass /\
  _offset (self (final r)) = _offset (self (p_before pass)).
Proof.
  intros r pass.
  assert (Hin : In pass (passes (pulled r)))
    by (vm_compute; right; left; reflexivity).
  assert (Htry : try_body (import_error_on_retry (p_index pass))
                   (p_before pass)
                 = (fst (try_body (import_error_on_retry (p_index pass))
                           (p_before pass)), Err PyImportError))
    by computed.
  split; [exact Hin|]. split; [computed|].
  exact (@import_error_is_raised_at_once demo false 300 None (20, 20)
           import_error_on_retry (fresh 3) pass _ PyImportError Hin Htry
           eq_refl).
Defined.

(** C9 as stated fails.  Single mode, [max_wait_time = 5], the anchor set
    at time [20] and the clock at [40] where the flush test stands: the
    deadline has passed, so the flush condition holds, of the consumer that
    holds message [2] and of the fresh consumer with its empty buffer
    alike.  But [do_work] times out and there is no retry budget: [receive]
    raises, message [2] is not dequeued, the cursor stays at event [1], the
    callback gets neither an event nor [None], and the anchor is not
    cleared. *)
Lemma single_mode_flush_skipped_when_pull_fails :
  let w := one_delivered 0 in
  let r := receive false 300 (Some 5) (20, 40) timing_out w in
  let r' := receive false 300 (Some 5) (20, 40) timing_out (fresh 0) in
  (flush_now 300 (Some 5) 40 (world (pulled r)) /\
   _message_buffer (self (world (pulled r))) = [2] /\
   outcome r = Raised (PyEventHubError PyTimeout) /\
   _message_buffer (self (final r)) = [2] /\
   _last_received_event (self (final r)) = Some 1 /\
   deliveries (trace (final r)) = deliveries (trace w) /\
   _receive_start_time (self (final r)) = Some 20) /\
  (flush_now 300 (Some 5) 40 (world (pulled r')) /\
   _message_buffer (self (world (pulled r'))) = [] /\
   outcome r' = Raised (PyEventHubError PyTimeout) /\
   deliveries (trace (final r')) = [] /\
   _receive_start_time (self (final r')) = Some 20).
Proof.
  intros w r r'.
  split.
  - split.
    { right; right; exists 5, 20.
      split; [reflexivity|]. split; [lia|]. split; [computed | lia]. }
    split; [computed|]. split; [computed|]. split; [computed|].
    split; [computed|]. split; computed.
  - split.
    { right; right; exists 5, 20.
      split; [reflexivity|]. split; [lia|]. split; [computed | lia]. }
    split; [computed|]. split; [computed|]. split; computed.
Qed.

(** C9, as amended, on a fresh consumer whose pull succeeds: messages [1]
    and [2] arrive, [1] is delivered alone and [2] stays. *)
Lemma single_mode_flush_witness :
  let r := receive false 1 None (10, 10) (fun _ => arriving [1; 2]) (fresh 0) in
  let w1 := world (pulled r) in
  exit (pulled r) = Completed /\
  flush_now 1 None (snd (10, 10)) w1 /\
  _message_buffer (self w1) = [1; 2] /\
  _message_buffer (self (final r)) = [2] /\
  deliveries (trace (final r)) = [Single (Some 1)] /\
  outcome r = Returned /\
  _receive_start_time (self (final r)) = None /\
  match _message_buffer (self w1) with
  | message :: rest =>
      _message_buffer (self (final r)) = rest /\
      _last_received_event (self (final r)) = Some (convert message) /\
      trace (final r)
      = trace w1 ++ [OnEventReceived (Single (Some (convert message)))]
  | [] =>
      _message_buffer (self (final r)) = [] /\
      _last_received_event (self (final r)) = _last_received_event (self w1)
      /\ trace (final r) = trace w1 ++ [OnEventReceived (Single None)]
  end.
Proof.
  intros r w1.
  assert (Hexit : exit (pulled r) = Completed) by computed.
  assert (Hflush : flush_now 1 None (snd (10, 10)) w1)
    by (left; vm_compute; discriminate).
  split; [exact Hexit|]. split; [exact Hflush|].
  split; [computed|]. split; [computed|]. split; [computed|].
  exact (@single_mode_flush demo 1 None (10, 10)
           (fun _ => arriving [1; 2]) (fresh 0) Hexit Hflush).
Defined.

(** C10 as stated fails on both counts.  With [max_wait_time = 0] and
    [max_batch_size = 0], a call on an empty buffer gives the callback the
    no-event signal.  And with [max_wait_time = 0] a non-empty buffer is
    not flushed by a call whose pull fails: on the consumer that holds
    message [2], [do_work] times out, there is no retry budget, [receive]
    raises and message [2] stays buffered. *)
Lemma zero_wait_counterexample :
  let r := receive false 0 (Some 0) (20, 20) (fun _ => arriving [])
             (fresh 3) in
  let w := one_delivered 0 in
  let r' := receive false 300 (Some 0) (20, 20) timing_out w in
  (_message_buffer (self (fresh 3)) = [] /\
   _message_buffer (self (world (pulled r))) = [] /\
   outcome r = Returned /\
   trace (final r) = [OnEventReceived (Single None)]) /\
  (_message_buffer (self w) = [2] /\
   _message_buffer (self (world (pulled r'))) = [2] /\
   outcome r' = Raised (PyEventHubError PyTimeout) /\
   _message_buffer (self (final r')) = [2] /\
   deliveries (trace (final r')) = deliveries (trace w)).
Proof.
  intros r w r'.
  split.
  - split; [computed|]. split; [computed|]. split; computed.
  - split; [computed|]. split; [computed|]. split; [computed|].
    split; computed.
Qed.

(** C6 as stated fails: [receive] on the closed consumer closes the stale
    handler, constructs a receive client, opens it and sets [running]. *)
Lemma receive_reopens_closed_consumer :
  let w := closed_consumer in
  let r := receive false 300 None (20, 20) (fun _ => arriving []) w in
  closed (self w) = true /\ running (self w) = false /\
  outcome r = Returned /\
  trace (final r)
  = trace w ++ [HandlerClose; CreateReceiveClient (handler_of w);
                HandlerOpen; ClientReady; DoWork 300;
                OnEventReceived (Single (Some 2))] /\
  running (self (final r)) = true /\
  closed (self (final r)) = true.
Proof.
  intros w r.
  split; [computed|]. split; [computed|]. split; [computed|].
  split; [computed|]. split; computed.
Qed.

(** C6, as amended, on the closed consumer. *)
Lemma closed_consumer_reopens_witness :
  let w := closed_consumer in
  let env := fun _ : nat => arriving [] in
  let r := receive false 300 None (20, 20) env w in
  running (self w) = false /\
  closed (self w) = true /\
  closed (self (final r)) = true /\
  (300 <= len w -> opens (trace (final r)) = opens (trace w)) /\
  (len w < 300 ->
   0 <= config_max_retries (self w) ->
   open_fault (env 0%nat) = None ->
   exists t,
     trace (final r)
     = trace w ++ stale w ++ [CreateReceiveClient (handler_of w); HandlerOpen]
       ++ t).
Proof.
  intros w env r.
  assert (Hrun : running (self w) = false) by computed.
  assert (Hclosed : closed (self w) = true) by computed.
  split; [exact Hrun|]. split; [exact Hclosed|].
  exact (@closed_consumer_reopens demo false 300 None (20, 20) env w
           Hrun Hclosed).
Defined.

(** * More of the code on the concrete consumer *)

(** X1 on the consumer that holds [2]: [3], [4] and [5] arrive, the batch is
    [2; 3] and [4; 5] stay. *)
Lemma batch_mode_flush_witness :
  let r := receive true 2 None (20, 20) (fun _ => arriving [3; 4; 5])
             (one_delivered 0) in
  let w1 := world (pulled r) in
  let n := Z.to_nat (Z.min 2 (len w1)) in
  let batch := map convert (firstn n (_message_buffer (self w1))) in
  exit (pulled r) = Completed /\
  flush_now 2 None (snd (20, 20)) w1 /\
  _message_buffer (self w1) = [2; 3; 4; 5] /\
  batch = [2; 3] /\
  _message_buffer (self (final r)) = [4; 5] /\
  outcome r = Returned /\
  trace (final r) = trace w1 ++ [OnEventReceived (Batch batch)] /\
  _message_buffer (self (final r)) = skipn n (_message_buffer (self w1)) /\
  _last_received_event (self (final r))
  = match last_of batch with
    | Some ev => Some ev
    | None => _last_received_event (self w1)
    end /\
  _receive_start_time (self (final r)) = None /\
  (0 <= 2 -> Z.of_nat (length batch) <= 2) /\
  (len w1 <= 2 -> _message_buffer (self (final r)) = []).
Proof.
  intros r w1 n batch.
  assert (Hexit : exit (pulled r) = Completed) by computed.
  assert (Hflush : flush_now 2 None (snd (20, 20)) w1)
    by (left; vm_compute; discriminate).
  split; [exact Hexit|]. split; [exact Hflush|].
  split; [computed|]. split; [computed|]. split; [computed|].
  exact (@batch_mode_flush demo 2 None (20, 20)
           (fun _ => arriving [3; 4; 5]) (one_delivered 0) Hexit Hflush).
Defined.

(** X2 on the consumer that holds [2], with [max_batch_size = 0]. *)
Lemma nonpositive_batch_size_delivers_nothing_witness :
  let w := one_delivered 0 in
  let r := receive true 0 (Some 5) (20, 20) (fun _ => arriving [3]) w in
  0 <= 0 /\
  _message_buffer (self w) = [2] /\
  outcome r = Returned /\
  passes (pulled r) = [] /\
  trace (final r) = trace w ++ [OnEventReceived (Batch [])] /\
  _message_buffer (self (final r)) = _message_buffer (self w) /\
  _last_received_event (self (final r)) = _last_received_event (self w).
Proof.
  intros w r.
  assert (H : 0 <= 0) by lia.
  split; [exact H|]. split; [computed|].
  exact (@nonpositive_batch_size_delivers_nothing demo 0 (Some 5) (20, 20)
           (fun _ => arriving [3]) w H).
Defined.

(** X5: message [1] arrives at time [100] with a wait of [10]; the call
    that reads [110] at its flush test delivers it. *)
Lemma deadline_runs_from_first_call_witness :
  let w := fresh 0 in
  let r := receive false 5 (Some 10) (100, 100) (fun _ => arriving [1]) w in
  let r' := receive false 5 (Some 10) (105, 110) (fun _ => arriving [])
              (final r) in
  _receive_start_time (self w) = None /\
  ~ handler_invoked w (final r) /\
  exit (pulled r') = Completed /\
  len (world (pulled r')) < 5 /\
  deliveries (trace (final r')) = [Single (Some 1)] /\
  (handler_invoked (final r) (final r')
   <-> fst (100, 100) + 10 <= snd (105, 110)).
Proof.
  intros w r r'.
  assert (Hnone : _receive_start_time (self w) = None) by computed.
  assert (Hnow : fst (100, 100) <> 0) by (vm_compute; discriminate).
  assert (Hquiet : ~ handler_invoked w (final r)).
  { assert (H1 : deliveries (trace (final r)) = []) by computed.
    assert (H2 : deliveries (trace w) = []) by computed.
    intros (d & Hd); rewrite H1, H2 in Hd; discriminate. }
  assert (Hwait : 10 <> 0) by discriminate.
  assert (Hexit : exit (pulled r') = Completed) by computed.
  assert (Hlen : len (world (pulled r')) < 5) by computed.
  split; [exact Hnone|]. split; [exact Hquiet|]. split; [exact Hexit|].
  split; [exact Hlen|]. split; [computed|].
  exact (@deadline_runs_from_first_call demo false 5 (Some 10) (100, 100)
           (fun _ => arriving [1]) false 5 10 (105, 110)
           (fun _ => arriving []) w Hnone Hnow Hquiet Hwait Hexit Hlen).
Defined.

(** X7 on a new consumer whose connection cannot be obtained. *)
Lemma failure_while_not_running_is_swallowed_witness :
  let w := fresh 3 in
  let env := fun _ : nat => unreachable in
  let r := receive false 300 None (20, 20) env w in
  let pass := first_pass 20 w in
  let w1 := fst (try_body (env (p_index pass)) (p_before pass)) in
  In pass (passes (pulled r)) /\
  try_body (env (p_index pass)) (p_before pass) = (w1, Err PyTimeout) /\
  running (self w1) = false /\
  outcome r = Returned /\
  final r = w1 /\
  (exists earlier, passes (pulled r) = earlier ++ [pass]) /\
  retried (pulled r) = p_retried pass /\
  _offset (self (final r)) = _offset (self (p_before pass)) /\
  deliveries (trace (final r)) = deliveries (trace w).
Proof.
  intros w env r pass w1.
  assert (Hin : In pass (passes (pulled r)))
    by (vm_compute; left; reflexivity).
  assert (Htry : try_body (env (p_index pass)) (p_before pass)
                 = (w1, Err PyTimeout)) by computed.
  assert (Hrun : running (self w1) = false) by computed.
  split; [exact Hin|]. split; [exact Htry|]. split; [exact Hrun|].
  exact (@failure_while_not_running_is_swallowed demo false 300 None
           (20, 20) env w pass w1 PyTimeout Hin Htry
           (conj eq_refl eq_refl) Hrun).
Defined.

(** X8 on a new consumer whose receive client is not ready at once. *)
Lemma client_not_ready_breaks_without_pull_witness :
  let w := fresh 3 in
  let env := fun _ : nat => not_ready in
  let p := pull 300 20 env w in
  let pass := first_pass 20 w in
  In pass (passes p) /\
  (running (self (p_before pass)) = false \/
   handler_ready (self (p_before pass)) = false) /\
  trace (world p) = [CreateReceiveClient (handler_of w); HandlerOpen;
                     ClientReady] /\
  exit p = Completed /\
  (exists earlier, passes p = earlier ++ [pass]) /\
  running (self (world p)) = true /\
  handler_ready (self (world p)) = false /\
  _message_buffer (self (world p)) = _message_buffer (self (p_before pass))
  /\
  exists t, trace (world p) = trace (p_before pass) ++ t /\
            pulls_work t = false.
Proof.
  intros w env p pass.
  assert (Hin : In pass (passes p)) by (vm_compute; left; reflexivity).
  assert (Hor : running (self (p_before pass)) = false \/
                handler_ready (self (p_before pass)) = false)
    by (left; computed).
  split; [exact Hin|]. split; [exact Hor|]. split; [computed|].
  exact (@client_not_ready_breaks_without_pull demo 300 20 env w pass Hin
           eq_refl eq_refl Hor).
Defined.

(** X9 on the running consumer that holds [2]: [3] and [4] arrive. *)
Lemma steady_pull_witness :
  let w := one_delivered 3 in
  let env := fun _ : nat => arriving [3; 4] in
  let p := pull 300 20 env w in
  running (self w) = true /\
  handler_ready (self w) = true /\
  len w < 300 /\
  0 <= config_max_retries (self w) /\
  _message_buffer (self (world p)) = [2; 3; 4] /\
  exit p = Completed /\
  length (passes p) = 1%nat /\
  retried p = 0 /\
  trace (world p)
  = trace w ++ DoWork (_prefetch (self w))
               :: map MessageReceived (arrivals (env 0%nat)) /\
  _message_buffer (self (world p))
  = _message_buffer (self w) ++ arrivals (env 0%nat).
Proof.
  intros w env p.
  assert (Hrun : running (self w) = true) by computed.
  assert (Hready : handler_ready (self w) = true) by computed.
  assert (Hlen : len w < 300) by computed.
  assert (Hbudget : 0 <= config_max_retries (self w))
    by (vm_compute; discriminate).
  split; [exact Hrun|]. split; [exact Hready|]. split; [exact Hlen|].
  split; [exact Hbudget|]. split; [computed|].
  exact (@steady_pull demo 300 20 env w Hrun Hready Hlen Hbudget eq_refl).
Defined.

(** X11 on the consumer that reopened once: its second receive client was
    constructed after the first was closed. *)
Lemma one_client_at_a_time_witness :
  let w := retried_consumer in
  let t1 := firstn 10 (trace w) in
  let h := {| h_offset := 1; h_inclusive := false; h_link_credit := 300;
              h_runtime_metric := false |} in
  let t2 := skipn 11 (trace w) in
  reachable w /\
  trace w = t1 ++ CreateReceiveClient h :: t2 /\
  fst (lifecycle t1) = Shut /\
  fst (lifecycle t1) <> Opened.
Proof.
  intros w t1 h t2.
  assert (Hreach : reachable w)
    by (apply reach_receive, reach_receive, reach_init).
  assert (Heq : trace w = t1 ++ CreateReceiveClient h :: t2) by computed.
  split; [exact Hreach|]. split; [exact Heq|]. split; [computed|].
  exact (@one_client_at_a_time demo w t1 h t2 Hreach Heq).
Defined.

(** X12 on the consumer that reopened once. *)
Lemma clients_keep_settings_witness :
  let w := retried_consumer in
  reachable w /\
  length (created (trace w)) = 2%nat /\
  Forall (fun h => (h_inclusive h, h_link_credit h, h_runtime_metric h)
                   = settings (self w))
    (created (trace w)).
Proof.
  intro w.
  assert (Hreach : reachable w)
    by (apply reach_receive, reach_receive, reach_init).
  split; [exact Hreach|]. split; [computed|].
  exact (@clients_keep_settings demo w Hreach).
Defined.

(** X13 on the source ["e/0"]. *)
Lemma partition_is_last_segment_witness :
  _partition partition_source
  = Some [Ascii.Ascii false false false false true true false false] /\
  exists p prefix,
    _partition partition_source = Some p /\
    ~ In slash p /\
    partition_source = prefix ++ p /\
    (prefix = [] \/ exists q, prefix = q ++ [slash]) /\
    (~ In slash partition_source -> p = partition_source) /\
    join slash (split slash partition_source) = partition_source.
Proof.
  split; [computed|].
  exact (partition_is_last_segment partition_source).
Defined.

(** X14 with [max_retries = 2] and a [do_work] that always times out. *)
Lemma raised_error_comes_from_last_attempt_witness :
  let r := receive true 300 None (20, 20) timing_out (fresh 2) in
  outcome r = Raised (PyEventHubError PyTimeout) /\
  retried (pulled r) = 3 /\
  exit (pulled r) = Propagated (PyEventHubError PyTimeout) /\
  exists last w1 e0,
    last_of (passes (pulled r)) = Some last /\
    try_body (timing_out (p_index last)) (p_before last) = (w1, Err e0) /\
    ((is_import_error e0 = true /\ PyEventHubError PyTimeout = e0) \/
     (is_import_error e0 = false /\
      check_link_stolen e0 = Some (PyEventHubError PyTimeout)) \/
     (retryable e0 /\ running (self w1) = true /\
      PyEventHubError PyTimeout = handled e0 /\
      retried (pulled r) = config_max_retries (self (fresh 2)) + 1)).
Proof.
  intro r.
  assert (Hout : outcome r = Raised (PyEventHubError PyTimeout))
    by computed.
  split; [exact Hout|]. split; [computed|].
  exact (@raised_error_comes_from_last_attempt demo true 300 None (20, 20)
           timing_out (fresh 2) _ Hout).
Defined.
